(** * Transport control, analysis graph and playlist handling of the audio player

    A shallow embedding of the parts of the React application that the
    specification talks about:
    - [AudioUtils]  : the module-level state of [src/lib/audio-utils.jsx];
    - [App]         : the playlist state of [src/App.jsx];
    - [AudioUploader] : the file checks of [src/components/AudioUploader.jsx];
    - [AudioPlayer] : the handlers of [src/components/AudioPlayer.jsx].

    JavaScript numbers are modelled by exact rationals in canonical form
    ([Qc], whose Leibniz equality is numeric equality, so that [===] is
    [bool_decide (_ = _)]); integer indices are [Z].  Rounding of IEEE
    doubles is not part of the model. *)

From Stdlib Require Import ZArith QArith Qcanon Qround Ascii String Lqa.
From stdpp Require Import base tactics option numbers list sets strings vector pretty.

Open Scope Z_scope.

(** ** JavaScript array and value helpers *)
Module JS.

(** [arr.findIndex(p)]: the first index whose element satisfies [p],
    [-1] when there is none. *)
Fixpoint findIndex_from {A} (p : A → bool) (arr : list A) (i : Z) : Z :=
  match arr with
  | [] => -1
  | x :: rest => if p x then i else findIndex_from p rest (i + 1)
  end.

Definition findIndex {A} (p : A → bool) (arr : list A) : Z :=
  findIndex_from p arr 0.

(** [arr[i]]: [undefined] (here [None]) outside [0 .. length-1],
    negative indices included. *)
Definition at_index {A} (arr : list A) (i : Z) : option A :=
  if bool_decide (i < 0) then None else arr !! Z.to_nat i.

(** [a || b] on values that are objects when present: an object is
    truthy, [undefined] and [null] are falsy. *)
Definition or_else {A} (a b : option A) : option A :=
  match a with
  | Some x => Some x
  | None => b
  end.

(** [arr.length] as a JavaScript number. *)
Definition length {A} (arr : list A) : Z := Z.of_nat (List.length arr).

(** [new Uint8Array(n)]: [n] zero bytes. *)
Definition Uint8Array (n : Z) : list Z := replicate (Z.to_nat n) 0.

(** [a % b] on integers: the remainder takes the sign of the dividend. *)
Definition remainder (a b : Z) : Z := Z.rem a b.

(** [Math.max] and [Math.min] on numbers. *)
Definition max (a b : Qc) : Qc := if decide (a ≤ b)%Qc then b else a.
Definition min (a b : Qc) : Qc := if decide (a ≤ b)%Qc then a else b.


(** [Math.floor] *)
Definition floor (x : Qc) : Z := Qfloor x.

(** Rounding toward zero, the quotient [%] works with. *)
Definition trunc (x : Qc) : Z :=
  if decide (x < 0)%Qc then Qceiling x else Qfloor x.

(** [a % b] on numbers, for [b] other than zero: what is left of [a]
    after taking out [b] a whole number of times, with the sign of [a]. *)
Definition fmod (a b : Qc) : Qc := (a - b * Qc_of_Z (trunc (a / b)))%Qc.

(** The text of an integer-valued number, as [toString] and template
    literals give it: plain decimal (below 10^21 in absolute value). *)
Definition toString (n : Z) : string := pretty n.

(** [s.padStart(targetLength, pad)] for a one-character [pad]. *)
Definition padStart (targetLength : nat) (pad : ascii) (s : string) : string :=
  string_of_list_ascii (replicate (targetLength - String.length s) pad) +:+ s.

(** How [/.../i] folds a character: ASCII letters lose their case,
    every other character only matches itself. *)
Definition fold_case (c : ascii) : ascii :=
  let n := nat_of_ascii c in
  if (65 <=? n)%nat && (n <=? 90)%nat then ascii_of_nat (n + 32) else c.

Fixpoint fold_cases (s : string) : string :=
  match s with
  | EmptyString => EmptyString
  | String c rest => String (fold_case c) (fold_cases rest)
  end.

(** [/suffix$/i.test(s)] for a literal [suffix]. *)
Definition ends_with_ignoring_case (suffix s : string) : bool :=
  let n := String.length s in
  let k := String.length suffix in
  (k <=? n)%nat &&
  String.eqb (fold_cases (substring (n - k) k s)) (fold_cases suffix).

(** [arr.includes(x)] on strings. *)
Definition includes (arr : list string) (x : string) : bool :=
  bool_decide (x ∈ arr).

End JS.

Infix "|||" := JS.or_else (at level 50, left associativity).

(** ** Files *)

(** What the handlers read of a [File] handed over by the browser. *)
Record File := {
  file_name : string;
  file_type : string;
  file_size : Z
}.

(** ** src/lib/audio-utils.jsx *)
Module AudioUtils.

Inductive ContextState := suspended | running | closed.

Record AudioContext := {
  state : ContextState
}.

(** The analyser node with the two parameters the module sets and the
    magnitudes the platform currently reports for its input. *)
Record AnalyserNode := {
  fftSize : Z;
  smoothingTimeConstant : Qc;
  frequencyData : list Z;
  timeDomainData : list Z
}.

Record GainNode := {
  gain : Qc
}.

(** A media element is identified by a number; a source node remembers
    the element it taps. *)
Record MediaElementSource := {
  mediaElement : Z
}.

(** The four module-level variables, the elements that already own a
    source node (the platform refuses to tap such an element a second
    time) and the console. *)
Record Module_ := {
  audioContext : option AudioContext;
  analyserNode : option AnalyserNode;
  sourceNode : option MediaElementSource;
  gainNode : option GainNode;
  tapped : list Z;
  console : list string
}.

Definition initial : Module_ :=
  {| audioContext := None; analyserNode := None; sourceNode := None;
     gainNode := None; tapped := []; console := [] |}.

(** [analyserNode.frequencyBinCount]: half the transform size. *)
Definition frequencyBinCount (a : AnalyserNode) : Z := fftSize a / 2.

(** [node.getByte...Data(dataArray)]: copies the reported samples into
    the array, position by position; positions the node does not
    report keep their content. *)
Fixpoint fill (dataArray samples : list Z) : list Z :=
  match dataArray, samples with
  | [], _ => []
  | d :: ds, [] => d :: ds
  | _ :: ds, s :: ss => s :: fill ds ss
  end.

(** A fresh context is created suspended or running by the platform;
    the analyser starts with the platform's defaults before the module
    overwrites [fftSize] and [smoothingTimeConstant]. *)
Definition initializeAudioContext (fresh : ContextState) (m : Module_)
  : AudioContext * Module_ :=
  match audioContext m with
  | Some ctx => (ctx, m)
  | None =>
      let ctx := {| state := fresh |} in
      let analyser := {| fftSize := 256; smoothingTimeConstant := Q2Qc 0.8;
                         frequencyData := []; timeDomainData := [] |} in
      (ctx, {| audioContext := Some ctx;
               analyserNode := Some analyser;
               sourceNode := sourceNode m;
               gainNode := Some {| gain := 1%Qc |};
               tapped := tapped m;
               console := console m |})
  end.

(** [connectAudioElement(audioElement)]; the argument is [None] for a
    falsy one.  [createMediaElementSource] throws for an element that
    was tapped before; the [catch] logs a warning and keeps the
    variables as they are at that point. *)
Definition connectAudioElement (audioElement : option Z) (m : Module_) : Module_ :=
  match audioContext m, audioElement with
  | Some _, Some el =>
      if bool_decide (el ∈ tapped m) then
        {| audioContext := audioContext m; analyserNode := analyserNode m;
           sourceNode := sourceNode m; gainNode := gainNode m;
           tapped := tapped m;
           console := console m ++ ["Audio connection failed:"%string] |}
      else
        {| audioContext := audioContext m; analyserNode := analyserNode m;
           sourceNode := Some {| mediaElement := el |}; gainNode := gainNode m;
           tapped := el :: tapped m;
           console := console m |}
  | _, _ => m
  end.

Definition getAudioData (m : Module_) : list Z :=
  match analyserNode m with
  | None => JS.Uint8Array 128
  | Some a =>
      let bufferLength := frequencyBinCount a in
      let dataArray := JS.Uint8Array bufferLength in
      fill dataArray (frequencyData a)
  end.

Definition getWaveformData (m : Module_) : list Z :=
  match analyserNode m with
  | None => JS.Uint8Array 128
  | Some a =>
      let bufferLength := frequencyBinCount a in
      let dataArray := JS.Uint8Array bufferLength in
      fill dataArray (timeDomainData a)
  end.

(** [setVolume(volume)]: clamps into [0, 1] and writes the gain. *)
Definition setVolume (volume : Qc) (m : Module_) : Module_ :=
  match gainNode m with
  | Some _ =>
      {| audioContext := audioContext m; analyserNode := analyserNode m;
         sourceNode := sourceNode m;
         gainNode := Some {| gain := JS.max 0 (JS.min 1 volume) |};
         tapped := tapped m; console := console m |}
  | None => m
  end.

(** [resumeAudioContext()]: [ok] tells whether the platform accepts
    the resume. *)
Definition resumeAudioContext (ok : bool) (m : Module_) : Module_ :=
  match audioContext m with
  | Some {| state := suspended |} =>
      if ok then
        {| audioContext := Some {| state := running |};
           analyserNode := analyserNode m; sourceNode := sourceNode m;
           gainNode := gainNode m; tapped := tapped m; console := console m |}
      else
        {| audioContext := audioContext m;
           analyserNode := analyserNode m; sourceNode := sourceNode m;
           gainNode := gainNode m; tapped := tapped m;
           console := console m ++ ["Failed to resume audio context:"%string] |}
  | _ => m
  end.

(** The calls a client can make on the module other than
    [initializeAudioContext]. *)
Inductive Call :=
| CallConnect (audioElement : option Z)
| CallGetAudioData
| CallGetWaveformData
| CallSetVolume (volume : Qc)
| CallResume (ok : bool).

Definition call (m : Module_) (c : Call) : Module_ :=
  match c with
  | CallConnect el => connectAudioElement el m
  | CallGetAudioData => m
  | CallGetWaveformData => m
  | CallSetVolume v => setVolume v m
  | CallResume ok => resumeAudioContext ok m
  end.

Definition calls (cs : list Call) (m : Module_) : Module_ :=
  foldl call m cs.


(** *** Tear-down, level, texts and file types *)

Definition cleanupAudio (m : Module_) : Module_ :=
  let m :=
    match sourceNode m with
    | Some _ =>
        {| audioContext := audioContext m; analyserNode := analyserNode m;
           sourceNode := None; gainNode := gainNode m;
           tapped := tapped m; console := console m |}
    | None => m
    end in
  match audioContext m with
  | Some {| state := closed |} => m
  | Some _ =>
      {| audioContext := None; analyserNode := None;
         sourceNode := sourceNode m; gainNode := None;
         tapped := tapped m; console := console m |}
  | None => m
  end.



(** [formatTime(seconds)]; a number of the model is never [NaN], so of
    the guard only [!seconds] is left. *)
Definition formatTime (seconds : Qc) : string :=
  if bool_decide (seconds = 0%Qc) then "0:00"
  else
    let mins := JS.floor (seconds / Qc_of_Z 60) in
    let secs := JS.floor (JS.fmod seconds (Qc_of_Z 60)) in
    JS.toString mins +:+ ":" +:+ JS.padStart 2 "0" (JS.toString secs).

Definition validTypes : list string :=
  ["audio/mpeg"; "audio/mp3"; "audio/wav"; "audio/ogg"; "audio/aac";
   "audio/m4a"; "audio/webm"]%string.

(** The alternatives of [/\.(mp3|wav|ogg|aac|m4a|webm)$/i]. *)
Definition extensions : list string :=
  [".mp3"; ".wav"; ".ogg"; ".aac"; ".m4a"; ".webm"]%string.

Definition isValidAudioFile (file : File) : bool :=
  JS.includes validTypes (file_type file)
  || existsb (λ ext, JS.ends_with_ignoring_case ext (file_name file)) extensions.

(** *** Drawing

    What a drawing function does to the 2D context, call by call. *)
Inductive Paint :=
| Colour (css : string)
| LinearGradient (x0 y0 x1 y1 : Qc) (stops : list (Qc * string)).

Inductive Command :=
| SetFillStyle (paint : Paint)
| SetStrokeStyle (paint : Paint)
| SetLineWidth (w : Qc)
| FillRect (x y w h : Qc)
| BeginPath
| MoveTo (x y : Qc)
| LineTo (x y : Qc)
| Stroke.

(** The body of the loop of [drawBars] for the samples from index [i]
    on. *)
Fixpoint bars_from (i : Z) (samples : list Z) (barWidth height : Qc) : list Command :=
  match samples with
  | [] => []
  | sample :: rest =>
      let barHeight := (Qc_of_Z sample / Qc_of_Z 255 * height * Q2Qc 0.8)%Qc in
      let x := (Qc_of_Z i * barWidth)%Qc in
      let y := (height - barHeight)%Qc in
      let gradient :=
        LinearGradient 0%Qc height 0%Qc y
          [(0%Qc, "rgba(59, 130, 246, 0.8)"%string);
           (Q2Qc 0.5, "rgba(147, 51, 234, 0.8)"%string);
           (1%Qc, "rgba(236, 72, 153, 0.8)"%string)] in
      SetFillStyle gradient
      :: FillRect x y (barWidth - Qc_of_Z 2)%Qc barHeight
      :: bars_from (i + 1) rest barWidth height
  end.

Definition drawBars (audioData : list Z) (width height : Qc) : list Command :=
  let barCount := Z.min 64 (JS.length audioData) in
  let barWidth := (width / Qc_of_Z barCount)%Qc in
  bars_from 0 (take (Z.to_nat barCount) audioData) barWidth height.

(** The body of the loop of [drawWaveform] for the samples from index
    [i] on, the pen being at abscissa [x]. *)
Fixpoint wave_from (i : Z) (x : Qc) (samples : list Z) (sliceWidth height : Qc)
  : list Command :=
  match samples with
  | [] => []
  | sample :: rest =>
      let v := ((Qc_of_Z sample - Qc_of_Z 128) / Qc_of_Z 128)%Qc in
      let y := (v * height / Qc_of_Z 2 + height / Qc_of_Z 2)%Qc in
      (if bool_decide (i = 0) then MoveTo x y else LineTo x y)
      :: wave_from (i + 1) (x + sliceWidth)%Qc rest sliceWidth height
  end.

Definition drawWaveform (audioData : list Z) (width height : Qc) : list Command :=
  let sliceWidth := (width / Qc_of_Z (JS.length audioData))%Qc in
  [SetStrokeStyle (Colour "rgba(59, 130, 246, 0.8)"); SetLineWidth (Qc_of_Z 2); BeginPath]
  ++ wave_from 0 0%Qc audioData sliceWidth height
  ++ [Stroke].

(** A bar that stands on the bottom edge inside its slot of the
    canvas and rises to at most four fifths of the height; the slot is
    the drawn width plus the gap of 2. *)
Definition bar_in_canvas (width height : Qc) (c : Command) : Prop :=
  match c with
  | FillRect x y w h =>
      (0 ≤ x)%Qc ∧ (x + (w + Qc_of_Z 2) ≤ width)%Qc ∧
      (y + h = height)%Qc ∧ (0 ≤ h)%Qc ∧ (h ≤ height * Q2Qc 0.8)%Qc
  | _ => True
  end.

(** A point of a path that lies on the canvas. *)
Definition point_in_canvas (width height : Qc) (c : Command) : Prop :=
  match c with
  | MoveTo x y | LineTo x y =>
      (0 ≤ x)%Qc ∧ (x ≤ width)%Qc ∧ (0 ≤ y)%Qc ∧ (y ≤ height)%Qc
  | _ => True
  end.

(** *** The loop of [createVisualizationLoop]

    The variable [animationId] of one loop, the browser's queue of
    animation frame callbacks as far as they are [animate] of this loop,
    the handle the browser gives out next (handles count up from 1), and
    the data handed to [drawVisualization] so far. *)
Record Loop := {
  animationId : option Z;
  queued : list Z;
  nextHandle : Z;
  drawings : list (list Z)
}.

Definition newLoop : Loop :=
  {| animationId := None; queued := []; nextHandle := 1; drawings := [] |}.

(** Whether [animationId] is truthy. *)
Definition running_id (l : Loop) : option Z :=
  match animationId l with
  | Some handle => if bool_decide (handle = 0) then None else Some handle
  | None => None
  end.

(** [animate()] with the module in state [m]. *)
Definition loop_animate (m : Module_) (l : Loop) : Loop :=
  {| animationId := Some (nextHandle l);
     queued := queued l ++ [nextHandle l];
     nextHandle := nextHandle l + 1;
     drawings := drawings l ++ [getAudioData m] |}.

Definition loop_start (m : Module_) (l : Loop) : Loop :=
  match running_id l with
  | None => loop_animate m l
  | Some _ => l
  end.

Definition loop_stop (l : Loop) : Loop :=
  match running_id l with
  | Some handle =>
      {| animationId := None;
         queued := List.filter (λ h, negb (bool_decide (h = handle))) (queued l);
         nextHandle := nextHandle l;
         drawings := drawings l |}
  | None => l
  end.

(** The browser reaches the next frame and runs the callback at the
    head of the queue. *)
Definition loop_frame (m : Module_) (l : Loop) : Loop :=
  match queued l with
  | [] => l
  | _ :: rest =>
      loop_animate m
        {| animationId := animationId l; queued := rest;
           nextHandle := nextHandle l; drawings := drawings l |}
  end.

Inductive LoopEvent :=
| LoopStart (m : Module_)
| LoopStop
| LoopFrame (m : Module_).

Definition loop_event (l : Loop) (e : LoopEvent) : Loop :=
  match e with
  | LoopStart m => loop_start m l
  | LoopStop => loop_stop l
  | LoopFrame m => loop_frame m l
  end.

Definition loop_events (es : list LoopEvent) (l : Loop) : Loop :=
  foldl loop_event l es.

(** The queue holds the frame [animationId] names and nothing else. *)
Definition one_frame (l : Loop) : Prop :=
  0 < nextHandle l ∧
  match animationId l with
  | Some handle => 0 < handle ∧ queued l = [handle]
  | None => queued l = []
  end.

(** *** Lives of the module *)

(** Everything that can happen to the module: the calls of its
    clients and a change of what the analyser hears, in bytes. *)
Inductive Op :=
| OpInitialize (fresh : ContextState)
| OpCall (c : Call)
| OpCleanup
| OpSignal (frequency time : list Z).

(** The analyser, when there is one, reports new data. *)
Definition signal (frequency time : list Z) (m : Module_) : Module_ :=
  match analyserNode m with
  | Some a =>
      {| audioContext := audioContext m;
         analyserNode :=
           Some {| fftSize := fftSize a;
                   smoothingTimeConstant := smoothingTimeConstant a;
                   frequencyData := frequency; timeDomainData := time |};
         sourceNode := sourceNode m; gainNode := gainNode m;
         tapped := tapped m; console := console m |}
  | None => m
  end.

Definition op (m : Module_) (o : Op) : Module_ :=
  match o with
  | OpInitialize fresh => snd (initializeAudioContext fresh m)
  | OpCall c => call m c
  | OpCleanup => cleanupAudio m
  | OpSignal frequency time => signal frequency time m
  end.

Definition ops (os : list Op) (m : Module_) : Module_ := foldl op m os.

(** A byte, as a [Uint8Array] holds it. *)
Definition byte (x : Z) : Prop := 0 ≤ x ≤ 255.

(** What the platform can do: a new context is not closed, and the
    analyser reports bytes. *)
Definition possible (os : list Op) : Prop :=
  Forall (λ o, match o with
               | OpInitialize fresh => fresh ≠ closed
               | OpSignal frequency time => Forall byte frequency ∧ Forall byte time
               | _ => True
               end) os.

(** The shape the module variables have together. *)
Definition well_formed (m : Module_) : Prop :=
  match audioContext m with
  | Some ctx =>
      state ctx ≠ closed ∧ is_Some (gainNode m) ∧
      ∃ a, analyserNode m = Some a ∧ fftSize a = 256 ∧
           Forall byte (frequencyData a) ∧ Forall byte (timeDomainData a)
  | None => analyserNode m = None ∧ gainNode m = None ∧ sourceNode m = None
  end.

End AudioUtils.

(** ** Tracks *)

(** The record [handleFileUpload] builds for an uploaded file.  The
    [file] handle itself plays no role in the handlers and is left out. *)
Record Track := {
  track_id : Qc;
  track_name : string;
  track_url : string;
  track_duration : Qc;
  track_uploadedAt : string
}.

(** ** src/App.jsx *)
Module App.

(** The [useState] cells of [App]. *)
Record State := {
  currentTrack : option Track;
  playlist : list Track;
  isPlaying : bool;
  currentTime : Qc;
  duration : Qc;
  volume : Qc;
  showUploader : bool
}.

Definition initial : State :=
  {| currentTrack := None; playlist := []; isPlaying := false;
     currentTime := 0%Qc; duration := 0%Qc; volume := Q2Qc 0.7;
     showUploader := false |}.

Definition setCurrentTrack (t : option Track) (s : State) : State :=
  {| currentTrack := t; playlist := playlist s; isPlaying := isPlaying s;
     currentTime := currentTime s; duration := duration s;
     volume := volume s; showUploader := showUploader s |}.

Definition setPlaylist (l : list Track) (s : State) : State :=
  {| currentTrack := currentTrack s; playlist := l; isPlaying := isPlaying s;
     currentTime := currentTime s; duration := duration s;
     volume := volume s; showUploader := showUploader s |}.

Definition setIsPlaying (b : bool) (s : State) : State :=
  {| currentTrack := currentTrack s; playlist := playlist s; isPlaying := b;
     currentTime := currentTime s; duration := duration s;
     volume := volume s; showUploader := showUploader s |}.

(** [currentTrack?.id === trackId] *)
Definition is_current (s : State) (trackId : Qc) : bool :=
  match currentTrack s with
  | Some c => bool_decide (track_id c = trackId)
  | None => false
  end.

Definition handleTrackSelect (track : Track) (s : State) : State :=
  setIsPlaying false (setCurrentTrack (Some track) s).

Definition handleRemoveTrack (trackId : Qc) (s : State) : State :=
  let prev := playlist s in
  let filtered :=
    List.filter (λ track, negb (bool_decide (track_id track = trackId))) prev in
  let s :=
    if is_current s trackId then
      let currentIndex :=
        JS.findIndex (λ track, bool_decide (track_id track = trackId)) prev in
      let nextTrack :=
        JS.at_index filtered currentIndex
        ||| JS.at_index filtered (currentIndex - 1)
        ||| None in
      setIsPlaying false (setCurrentTrack nextTrack s)
    else s in
  setPlaylist filtered s.


(** *** Uploading and stepping through the playlist *)

Definition setShowUploader (b : bool) (s : State) : State :=
  {| currentTrack := currentTrack s; playlist := playlist s;
     isPlaying := isPlaying s; currentTime := currentTime s;
     duration := duration s; volume := volume s; showUploader := b |}.

(** What the platform answers while [handleFileUpload] builds the
    record of one file: [Date.now() + Math.random()],
    [URL.createObjectURL(file)] and [new Date().toISOString()]. *)
Record Stamp := {
  stamp_id : Qc;
  stamp_url : string;
  stamp_time : string
}.

(** The record built for one file. *)
Definition newTrack (upload : File * Stamp) : Track :=
  {| track_id := stamp_id upload.2;
     track_name := file_name upload.1;
     track_url := stamp_url upload.2;
     track_duration := 0%Qc;
     track_uploadedAt := stamp_time upload.2 |}.

Definition handleFileUpload (files : list (File * Stamp)) (s : State) : State :=
  let newTracks := map newTrack files in
  let s' := setPlaylist (playlist s ++ newTracks) s in
  let s' :=
    match currentTrack s, newTracks with
    | None, first :: _ => setCurrentTrack (Some first) s'
    | _, _ => s'
    end in
  setShowUploader false s'.

(** [track.id === currentTrack?.id] *)
Definition has_current_id (s : State) (track : Track) : bool :=
  match currentTrack s with
  | Some c => bool_decide (track_id track = track_id c)
  | None => false
  end.

Definition handleNextTrack (s : State) : State :=
  if bool_decide (JS.length (playlist s) = 0) then s
  else
    let currentIndex := JS.findIndex (has_current_id s) (playlist s) in
    let nextIndex := JS.remainder (currentIndex + 1) (JS.length (playlist s)) in
    setCurrentTrack (JS.at_index (playlist s) nextIndex) s.

Definition handlePreviousTrack (s : State) : State :=
  if bool_decide (JS.length (playlist s) = 0) then s
  else
    let currentIndex := JS.findIndex (has_current_id s) (playlist s) in
    let prevIndex :=
      if bool_decide (currentIndex = 0) then JS.length (playlist s) - 1
      else currentIndex - 1 in
    setCurrentTrack (JS.at_index (playlist s) prevIndex) s.

Definition formatTime (time : Qc) : string :=
  if bool_decide (time = 0%Qc) then "0:00"
  else
    let minutes := JS.floor (time / Qc_of_Z 60) in
    let seconds := JS.floor (JS.fmod time (Qc_of_Z 60)) in
    JS.toString minutes +:+ ":" +:+ JS.padStart 2 "0" (JS.toString seconds).

(** What the user can do to [App]. *)
Inductive Action :=
| FileUpload (files : list (File * Stamp))
| TrackSelect (track : Track)
| RemoveTrack (trackId : Qc)
| NextTrack
| PreviousTrack.

Definition step (a : Action) (s : State) : State :=
  match a with
  | FileUpload files => handleFileUpload files s
  | TrackSelect track => handleTrackSelect track s
  | RemoveTrack trackId => handleRemoveTrack trackId s
  | NextTrack => handleNextTrack s
  | PreviousTrack => handlePreviousTrack s
  end.

(** The page offers to select the tracks of the playlist only. *)
Definition offered (a : Action) (s : State) : Prop :=
  match a with
  | TrackSelect track => track ∈ playlist s
  | _ => True
  end.

(** The selection is a track of the playlist, and there is one as soon
    as the playlist has a track. *)
Definition selection_consistent (s : State) : Prop :=
  match currentTrack s with
  | Some c => c ∈ playlist s
  | None => playlist s = []
  end.

End App.

(** ** src/components/AudioUploader.jsx *)
Module AudioUploader.

Definition allowedTypes : list string :=
  ["audio/mp3"; "audio/mpeg"; "audio/wav"; "audio/ogg"; "audio/m4a";
   "audio/aac"]%string.

Definition maxFileSize : Z := 50 * 1024 * 1024.

(** [validateFile(file)]: the message of the first failed check,
    [null] for a file that passes. *)
Definition validateFile (file : File) : option string :=
  if negb (JS.includes allowedTypes (file_type file)) then
    Some "Please upload a valid audio file (MP3, WAV, OGG, M4A, AAC)"%string
  else if bool_decide (file_size file > maxFileSize) then
    Some "File size must be less than 50MB"%string
  else None.


End AudioUploader.

(** ** src/components/AudioPlayer.jsx *)
Module AudioPlayer.

Record Props := {
  playlist : list Track;
  currentTrackIndex : Z;
  (** whether the parent passed an [onTrackChange] callback *)
  onTrackChange : bool
}.

(** The [useState] cells of the component. *)
Record State := {
  isPlaying : bool;
  currentTime : Qc;
  duration : Qc;
  volume : Qc;
  isMuted : bool;
  isRepeat : bool;
  isShuffle : bool;
  isLoading : bool;
  error : option string
}.

(** The attributes of the [<audio>] element the handlers read and
    assign.  An assignment stores the assigned value. *)
Record HTMLAudioElement := {
  el_currentTime : Qc;
  el_duration : Qc;
  el_volume : Qc;
  el_paused : bool
}.

(** What a handler makes visible outside the component. *)
Inductive Event :=
| TrackChange (index : Z)
| ConsoleError (message : string)
| DrawVisualization (audioData : list Z) (type : string)
| CancelAnimationFrame (handle : Z)
| UnhandledRejection.

(** What the platform decides during one handler run: the draw of
    [Math.random()], whether [resume()] and [play()] are accepted, and
    the handle [requestAnimationFrame] returns. *)
Record Env := {
  random : Qc;
  resume_ok : bool;
  play_ok : bool;
  frame : Z
}.

(** Everything a handler can read or write besides its closure: the
    state cells, the four refs, the state of [audio-utils] and the
    events emitted so far. *)
Record World := {
  state : State;
  audioRef : option HTMLAudioElement;
  canvasRef : bool;
  audioContextRef : option AudioUtils.AudioContext;
  animationRef : option Z;
  utils : AudioUtils.Module_;
  emitted : list Event
}.

Definition initialState : State :=
  {| isPlaying := false; currentTime := 0%Qc; duration := 0%Qc;
     volume := 1%Qc; isMuted := false; isRepeat := false;
     isShuffle := false; isLoading := false; error := None |}.

(** *** Exceptions and the handler monad *)

Inductive Exn :=
| TypeError
| DOMException (name : string).

Inductive Completion (A : Type) :=
| Normal (a : A)
| Throw (e : Exn).
Arguments Normal {A} a.
Arguments Throw {A} e.

(** A handler body: it runs on a world and completes normally or
    abruptly; the writes made before a throw stay. *)
Definition M (A : Type) : Type := World → Completion A * World.

Definition ret {A} (a : A) : M A := λ w, (Normal a, w).

Definition bind {A B} (m : M A) (k : A → M B) : M B :=
  λ w, match m w with
       | (Normal a, w') => k a w'
       | (Throw e, w') => (Throw e, w')
       end.

Definition throw {A} (e : Exn) : M A := λ w, (Throw e, w).
Definition gets {A} (f : World → A) : M A := λ w, (Normal (f w), w).
Definition modify (f : World → World) : M unit := λ w, (Normal tt, f w).

(** [try { body } catch (err) { handler } finally { finalizer }] *)
Definition try_catch_finally {A}
    (body : M A) (handler : Exn → M A) (finalizer : M unit) : M A :=
  λ w,
    let '(r, w1) := body w in
    let '(r', w2) :=
      match r with
      | Normal a => (Normal a, w1)
      | Throw e => handler e w1
      end in
    match finalizer w2 with
    | (Normal _, w3) => (r', w3)
    | (Throw e, w3) => (Throw e, w3)
    end.

(** Calling an [async] function without awaiting it: the caller goes
    on normally; a rejection is nobody's to handle.  The body runs to
    its end before the caller continues. *)
Definition unawaited (m : M unit) : M unit :=
  λ w, match m w with
       | (Normal _, w') => (Normal tt, w')
       | (Throw _, w') =>
           (Normal tt,
            {| state := state w'; audioRef := audioRef w';
               canvasRef := canvasRef w';
               audioContextRef := audioContextRef w';
               animationRef := animationRef w'; utils := utils w';
               emitted := emitted w' ++ [UnhandledRejection] |})
       end.

Definition exec {A} (m : M A) (w : World) : World := snd (m w).
Definition completion {A} (m : M A) (w : World) : Completion A := fst (m w).

#[export] Instance M_ret : MRet M := @ret.
#[export] Instance M_bind : MBind M := λ A B k m, bind m k.

(** *** Writes to the state cells, the refs and the outside *)

Definition with_state (f : State → State) (w : World) : World :=
  {| state := f (state w); audioRef := audioRef w; canvasRef := canvasRef w;
     audioContextRef := audioContextRef w; animationRef := animationRef w;
     utils := utils w; emitted := emitted w |}.

Definition with_audio (f : HTMLAudioElement → HTMLAudioElement) (w : World) : World :=
  {| state := state w; audioRef := f <$> audioRef w; canvasRef := canvasRef w;
     audioContextRef := audioContextRef w; animationRef := animationRef w;
     utils := utils w; emitted := emitted w |}.

Definition with_animationRef (a : option Z) (w : World) : World :=
  {| state := state w; audioRef := audioRef w; canvasRef := canvasRef w;
     audioContextRef := audioContextRef w; animationRef := a;
     utils := utils w; emitted := emitted w |}.

Definition with_emitted (e : Event) (w : World) : World :=
  {| state := state w; audioRef := audioRef w; canvasRef := canvasRef w;
     audioContextRef := audioContextRef w; animationRef := animationRef w;
     utils := utils w; emitted := emitted w ++ [e] |}.

(** The context object in the ref is the one [audio-utils] holds:
    resuming it is seen through both. *)
Definition with_running_context (w : World) : World :=
  {| state := state w; audioRef := audioRef w; canvasRef := canvasRef w;
     audioContextRef :=
       (λ _, {| AudioUtils.state := AudioUtils.running |}) <$> audioContextRef w;
     animationRef := animationRef w;
     utils := AudioUtils.resumeAudioContext true (utils w);
     emitted := emitted w |}.

Definition setIsPlaying (b : bool) : M unit :=
  modify (with_state (λ s,
    {| isPlaying := b; currentTime := currentTime s; duration := duration s;
       volume := volume s; isMuted := isMuted s; isRepeat := isRepeat s;
       isShuffle := isShuffle s; isLoading := isLoading s; error := error s |})).

Definition setCurrentTime (t : Qc) : M unit :=
  modify (with_state (λ s,
    {| isPlaying := isPlaying s; currentTime := t; duration := duration s;
       volume := volume s; isMuted := isMuted s; isRepeat := isRepeat s;
       isShuffle := isShuffle s; isLoading := isLoading s; error := error s |})).

Definition setDuration (d : Qc) : M unit :=
  modify (with_state (λ s,
    {| isPlaying := isPlaying s; currentTime := currentTime s; duration := d;
       volume := volume s; isMuted := isMuted s; isRepeat := isRepeat s;
       isShuffle := isShuffle s; isLoading := isLoading s; error := error s |})).

Definition setVolume (v : Qc) : M unit :=
  modify (with_state (λ s,
    {| isPlaying := isPlaying s; currentTime := currentTime s;
       duration := duration s; volume := v; isMuted := isMuted s;
       isRepeat := isRepeat s; isShuffle := isShuffle s;
       isLoading := isLoading s; error := error s |})).

Definition setIsMuted (b : bool) : M unit :=
  modify (with_state (λ s,
    {| isPlaying := isPlaying s; currentTime := currentTime s;
       duration := duration s; volume := volume s; isMuted := b;
       isRepeat := isRepeat s; isShuffle := isShuffle s;
       isLoading := isLoading s; error := error s |})).

Definition setIsRepeat (b : bool) : M unit :=
  modify (with_state (λ s,
    {| isPlaying := isPlaying s; currentTime := currentTime s;
       duration := duration s; volume := volume s; isMuted := isMuted s;
       isRepeat := b; isShuffle := isShuffle s;
       isLoading := isLoading s; error := error s |})).

Definition setIsShuffle (b : bool) : M unit :=
  modify (with_state (λ s,
    {| isPlaying := isPlaying s; currentTime := currentTime s;
       duration := duration s; volume := volume s; isMuted := isMuted s;
       isRepeat := isRepeat s; isShuffle := b;
       isLoading := isLoading s; error := error s |})).

Definition setIsLoading (b : bool) : M unit :=
  modify (with_state (λ s,
    {| isPlaying := isPlaying s; currentTime := currentTime s;
       duration := duration s; volume := volume s; isMuted := isMuted s;
       isRepeat := isRepeat s; isShuffle := isShuffle s;
       isLoading := b; error := error s |})).

Definition setError (e : option string) : M unit :=
  modify (with_state (λ s,
    {| isPlaying := isPlaying s; currentTime := currentTime s;
       duration := duration s; volume := volume s; isMuted := isMuted s;
       isRepeat := isRepeat s; isShuffle := isShuffle s;
       isLoading := isLoading s; error := e |})).

(** [audioRef.current.currentTime = t]; on a [null] ref the property
    access throws. *)
Definition assign_currentTime (t : Qc) : M unit :=
  a ← gets audioRef;
  match a with
  | None => throw TypeError
  | Some _ =>
      modify (with_audio (λ el,
        {| el_currentTime := t; el_duration := el_duration el;
           el_volume := el_volume el; el_paused := el_paused el |}))
  end.

(** [audioRef.current.volume = v] *)
Definition assign_volume (v : Qc) : M unit :=
  a ← gets audioRef;
  match a with
  | None => throw TypeError
  | Some _ =>
      modify (with_audio (λ el,
        {| el_currentTime := el_currentTime el; el_duration := el_duration el;
           el_volume := v; el_paused := el_paused el |}))
  end.

Definition set_paused (b : bool) : World → World :=
  with_audio (λ el,
    {| el_currentTime := el_currentTime el; el_duration := el_duration el;
       el_volume := el_volume el; el_paused := b |}).

(** [audioRef.current.pause()] *)
Definition audio_pause : M unit :=
  a ← gets audioRef;
  match a with
  | None => throw TypeError
  | Some _ => modify (set_paused true)
  end.

Definition emit (e : Event) : M unit := modify (with_emitted e).

(** [Math.floor] of a number. *)
Definition floor (x : Qc) : Z := Qfloor x.

(** The argument of a slider's [onValueChange] is an array with one
    number per thumb; both sliders have a single thumb, [value[0]]. *)
Definition SliderValue : Type := vec Qc 1.

(** *** The handlers

    A handler is a closure created by a render: [props] and the state
    cells it mentions are the values of that render ([snap]), whatever
    has been written to the cells since; [env] is what the platform
    decides while it runs. *)
Section Handlers.
Variable props : Props.
Variable env : Env.
Variable snap : State.

(** [const currentTrack = playlist[currentTrackIndex]] *)
Definition currentTrack : option Track :=
  JS.at_index (playlist props) (currentTrackIndex props).

(** [await audioContextRef.current.resume()] *)
Definition context_resume : M unit :=
  if resume_ok env then modify with_running_context
  else throw (DOMException "InvalidStateError").

(** [await audioRef.current.play()] *)
Definition audio_play : M unit :=
  a ← gets audioRef;
  match a with
  | None => throw TypeError
  | Some _ =>
      if play_ok env then modify (set_paused false)
      else throw (DOMException "NotSupportedError")
  end.

(** One run of [animate]; the next one is only requested. *)
Definition animate : M unit :=
  if isPlaying snap then
    audioData ← gets (λ w, AudioUtils.getAudioData (utils w));
    emit (DrawVisualization audioData "bars");;
    modify (with_animationRef (Some (frame env)))
  else mret tt.

Definition startVisualization : M unit :=
  canvas ← gets canvasRef;
  if negb canvas then mret tt else animate.

Definition handlePlay : M unit :=
  a ← gets audioRef;
  match a, currentTrack with
  | Some _, Some _ =>
      try_catch_finally
        (setIsLoading true;;
         setError None;;
         ctx ← gets audioContextRef;
         match ctx with
         | Some {| AudioUtils.state := AudioUtils.suspended |} => context_resume
         | _ => mret tt
         end;;
         audio_play;;
         setIsPlaying true;;
         startVisualization)
        (λ err,
         setError (Some "Failed to play audio. Please check the file format.");;
         emit (ConsoleError "Play error:"))
        (setIsLoading false)
  | _, _ => mret tt
  end.

Definition handlePause : M unit :=
  a ← gets audioRef;
  match a with
  | Some _ =>
      audio_pause;;
      setIsPlaying false;;
      anim ← gets animationRef;
      match anim with
      | Some handle =>
          if bool_decide (handle = 0) then mret tt
          else emit (CancelAnimationFrame handle)
      | None => mret tt
      end
  | None => mret tt
  end.

Definition handlePlayPause : M unit :=
  if isPlaying snap then handlePause else unawaited handlePlay.

Definition handleTimeUpdate : M unit :=
  a ← gets audioRef;
  match a with
  | Some el => setCurrentTime (el_currentTime el)
  | None => mret tt
  end.

Definition handleLoadedMetadata : M unit :=
  a ← gets audioRef;
  match a with
  | Some el => setDuration (el_duration el)
  | None => mret tt
  end.

Definition handleSeek (value : SliderValue) : M unit :=
  a ← gets audioRef;
  match a with
  | Some _ =>
      let newTime := (value !!! 0%fin / Qc_of_Z 100 * duration snap)%Qc in
      assign_currentTime newTime;;
      setCurrentTime newTime
  | None => mret tt
  end.

Definition handleVolumeChange (value : SliderValue) : M unit :=
  let newVolume := (value !!! 0%fin / Qc_of_Z 100)%Qc in
  setVolume newVolume;;
  a ← gets audioRef;
  match a with
  | Some _ => assign_volume newVolume
  | None => mret tt
  end;;
  setIsMuted (bool_decide (newVolume = 0%Qc)).

Definition toggleMute : M unit :=
  a ← gets audioRef;
  match a with
  | Some _ =>
      if isMuted snap then
        assign_volume (volume snap);;
        setIsMuted false
      else
        assign_volume 0%Qc;;
        setIsMuted true
  | None => mret tt
  end.

(** [onTrackChange?.(index)] *)
Definition call_onTrackChange (index : Z) : M unit :=
  if onTrackChange props then emit (TrackChange index) else mret tt.

(** [Math.floor(Math.random() * playlist.length)] *)
Definition randomIndex : Z :=
  floor (random env * Qc_of_Z (JS.length (playlist props)))%Qc.

Definition handleNext : M unit :=
  if bool_decide (JS.length (playlist props) = 0) then mret tt
  else
    let nextIndex :=
      if isShuffle snap then randomIndex
      else JS.remainder (currentTrackIndex props + 1) (JS.length (playlist props)) in
    call_onTrackChange nextIndex.

Definition handlePrevious : M unit :=
  if bool_decide (JS.length (playlist props) = 0) then mret tt
  else
    let prevIndex :=
      if isShuffle snap then randomIndex
      else if bool_decide (currentTrackIndex props = 0)
           then JS.length (playlist props) - 1
           else currentTrackIndex props - 1 in
    call_onTrackChange prevIndex.

Definition handleEnded : M unit :=
  if isRepeat snap then
    assign_currentTime 0%Qc;;
    unawaited handlePlay
  else handleNext.

End Handlers.

(** An event reaches the handler of the latest render: its closure
    holds the current content of the state cells. *)
Definition dispatch {A} (handler : State → M A) : M A :=
  λ w, handler (state w) w.

(** *** Runs of the component *)

(** What can happen to the mounted component: the events of the
    [<audio>] element and of the controls. *)
Inductive Action :=
| PlayPause
| TimeUpdate
| LoadedMetadata
| Ended
| Seek (value : SliderValue)
| VolumeChange (value : SliderValue)
| ToggleMute
| Next
| Previous
| ToggleShuffle
| ToggleRepeat.

Definition fire (props : Props) (env : Env) (a : Action) : M unit :=
  match a with
  | PlayPause => dispatch (handlePlayPause props env)
  | TimeUpdate => handleTimeUpdate
  | LoadedMetadata => handleLoadedMetadata
  | Ended => dispatch (handleEnded props env)
  | Seek value => dispatch (λ snap, handleSeek snap value)
  | VolumeChange value => handleVolumeChange value
  | ToggleMute => dispatch toggleMute
  | Next => dispatch (handleNext props env)
  | Previous => dispatch (handlePrevious props env)
  | ToggleShuffle => dispatch (λ snap, setIsShuffle (negb (isShuffle snap)))
  | ToggleRepeat => dispatch (λ snap, setIsRepeat (negb (isRepeat snap)))
  end.

(** The worlds a mounted component can be in: it starts from the
    initial state cells with an element at full volume; every action
    meets the props and the platform of its moment. *)
Inductive reachable : World → Prop :=
| reachable_mount (w : World) :
    state w = initialState →
    el_volume <$> audioRef w = Some 1%Qc →
    reachable w
| reachable_fire (w : World) (props : Props) (env : Env) (a : Action) :
    reachable w →
    reachable (exec (fire props env a) w).

(** While not muted the element plays at the remembered volume. *)
Definition audible_at_volume (w : World) : Prop :=
  ∃ el, audioRef w = Some el ∧
        (isMuted (state w) = false → el_volume el = volume (state w)).

(** *** What is observed of a run *)

(** The indices handed to [onTrackChange] so far, oldest first. *)
Definition trackChanges (w : World) : list Z :=
  omap (λ e, match e with TrackChange index => Some index | _ => None end)
       (emitted w).

(** The world after [onTrackChange?.(index)]: the parent is told the
    index when it passed a callback. *)
Definition notified (props : Props) (index : Z) (w : World) : World :=
  if onTrackChange props then with_emitted (TrackChange index) w else w.

(** The position of the element, when there is one. *)
Definition position (w : World) : option Qc := el_currentTime <$> audioRef w.

(** The volume of the element, when there is one. *)
Definition elementVolume (w : World) : option Qc := el_volume <$> audioRef w.

(** A computation that completes normally on every world. *)
Definition never_throws {A} (m : M A) : Prop :=
  ∀ w, ∃ a, completion m w = Normal a.

(** The specification's reading of a failed [play()]: is-playing and
    loading are false afterwards, an error message is set, and the
    call completes normally. *)
Definition play_failure_rolls_back (props : Props) (env : Env) (w : World) : Prop :=
  is_Some (audioRef w) →
  is_Some (currentTrack props) →
  play_ok env = false →
  let w' := exec (dispatch (handlePlay props env)) w in
  completion (dispatch (handlePlay props env)) w = Normal tt ∧
  isPlaying (state w') = false ∧
  isLoading (state w') = false ∧
  is_Some (error (state w')).

(** *** What the component shows *)

(** [formatTime(time)] of the component: its guard is for [NaN] only,
    which no number of the model is. *)
Definition formatTime (time : Qc) : string :=
  let minutes := JS.floor (time / Qc_of_Z 60) in
  let seconds := JS.floor (JS.fmod time (Qc_of_Z 60)) in
  JS.toString minutes +:+ ":" +:+ JS.padStart 2 "0" (JS.toString seconds).



(** The frames drawn so far. *)
Definition drawn (w : World) : list (list Z * string) :=
  omap (λ e, match e with
             | DrawVisualization audioData type => Some (audioData, type)
             | _ => None
             end)
       (emitted w).

(** The props after the parent has moved the cursor to [index]. *)
Definition moved_to (index : Z) (props : Props) : Props :=
  {| playlist := playlist props; currentTrackIndex := index;
     onTrackChange := onTrackChange props |}.

End AudioPlayer.

(** ** Sample data *)
Module Sample.
Import AudioPlayer.

Definition track (n : Z) (name : string) : Track :=
  {| track_id := Qc_of_Z n; track_name := name; track_url := "blob:" +:+ name;
     track_duration := 0%Qc; track_uploadedAt := "2024-01-01T00:00:00.000Z" |}.

Definition A : Track := track 1 "a.mp3".
Definition B : Track := track 2 "b.mp3".
Definition C : Track := track 3 "c.mp3".

(** [App] with three tracks, the middle one selected and playing. *)
Definition app : App.State :=
  {| App.currentTrack := Some B; App.playlist := [A; B; C];
     App.isPlaying := true; App.currentTime := 0%Qc; App.duration := 0%Qc;
     App.volume := Q2Qc 0.7; App.showUploader := false |}.

Definition app_with (current : option Track) (l : list Track) : App.State :=
  App.setPlaylist l (App.setCurrentTrack current app).

Definition props (l : list Track) (i : Z) : Props :=
  {| playlist := l; currentTrackIndex := i; onTrackChange := true |}.

(** An element whose metadata said 180 seconds. *)
Definition element : HTMLAudioElement :=
  {| el_currentTime := 0%Qc; el_duration := Qc_of_Z 180;
     el_volume := 1%Qc; el_paused := true |}.

(** The component right after mounting on a playlist. *)
Definition mounted : World :=
  {| state := initialState; audioRef := Some element; canvasRef := true;
     audioContextRef := None; animationRef := None;
     utils := AudioUtils.initial; emitted := [] |}.

(** The same once the metadata of a 180 second track has arrived. *)
Definition loaded : World := exec handleLoadedMetadata mounted.

(** Playing with repeat-one on, as when a track reaches its end. *)
Definition playing_on_repeat : World :=
  exec (setIsRepeat true) (exec (setIsPlaying true) (exec (modify (set_paused false)) loaded)).

Definition accepting : Env :=
  {| random := Q2Qc 0.5; resume_ok := true; play_ok := true; frame := 1 |}.

Definition rejecting : Env :=
  {| random := Q2Qc 0.5; resume_ok := true; play_ok := false; frame := 1 |}.

(** A slider value [[x]]. *)
Definition slider (x : Z) : SliderValue := [# Qc_of_Z x].

End Sample.

(** * Properties *)

(** ** Arrays *)
Section ArrayFacts.
Context {A : Type}.
Implicit Types (p : A → bool) (arr l : list A) (x : A) (i : Z).

Lemma at_index_nat arr (n : nat) : JS.at_index arr (Z.of_nat n) = arr !! n.
Proof.
  unfold JS.at_index. rewrite bool_decide_eq_false_2 by lia.
  by rewrite Nat2Z.id.
Qed.

Lemma at_index_negative arr i : i < 0 → JS.at_index arr i = None.
Proof. intros Hi. unfold JS.at_index. by rewrite bool_decide_eq_true_2. Qed.

Lemma at_index_length_app l1 l2 : JS.at_index (l1 ++ l2) (JS.length l1) = head l2.
Proof.
  unfold JS.length. rewrite at_index_nat.
  rewrite lookup_app_r by lia. rewrite Nat.sub_diag. by destruct l2.
Qed.

Lemma at_index_before_app l1 l2 :
  JS.at_index (l1 ++ l2) (JS.length l1 - 1) = last l1.
Proof.
  unfold JS.length. destruct l1 as [|x l1] using rev_ind.
  - by rewrite at_index_negative.
  - rewrite length_app, last_snoc. simpl.
    replace (Z.of_nat (List.length l1 + 1) - 1) with (Z.of_nat (List.length l1)) by lia.
    rewrite at_index_nat, <- app_assoc.
    rewrite lookup_app_r by lia. by rewrite Nat.sub_diag.
Qed.

Lemma findIndex_from_first p l1 x l2 i :
  Forall (λ y, p y = false) l1 → p x = true →
  JS.findIndex_from p (l1 ++ x :: l2) i = i + JS.length l1.
Proof.
  intros Hl1 Hx. revert i.
  induction Hl1 as [|y l1 Hy _ IH]; intros i; simpl.
  - rewrite Hx. unfold JS.length. simpl. lia.
  - rewrite Hy, IH. unfold JS.length. simpl. lia.
Qed.

Lemma findIndex_first p l1 x l2 :
  Forall (λ y, p y = false) l1 → p x = true →
  JS.findIndex p (l1 ++ x :: l2) = JS.length l1.
Proof. intros. unfold JS.findIndex. by rewrite findIndex_from_first. Qed.

Lemma filter_keep_all p arr :
  Forall (λ y, p y = true) arr → List.filter p arr = arr.
Proof.
  induction 1 as [|y l Hy _ IH]; simpl; [done|].
  by rewrite Hy, IH.
Qed.

End ArrayFacts.

(** ** Playlist of [App] *)
Section PlaylistFacts.
Implicit Types (s : App.State) (l : list Track) (t c : Track).

(** In a playlist with pairwise different ids, the tracks around [t]
    carry other ids than [t]. *)
Lemma unique_id_around l1 t l2 :
  NoDup (track_id <$> l1 ++ t :: l2) →
  Forall (λ y, track_id y ≠ track_id t) l1 ∧
  Forall (λ y, track_id y ≠ track_id t) l2.
Proof.
  rewrite fmap_app, fmap_cons.
  intros (_ & Hl1 & (Hl2 & _)%NoDup_cons)%NoDup_app.
  split; apply Forall_forall; intros y Hy Heq.
  - apply (Hl1 (track_id y)).
    + apply list_elem_of_fmap. eauto.
    + rewrite Heq. left.
  - apply Hl2. rewrite <- Heq. apply list_elem_of_fmap. eauto.
Qed.

(** [prev.filter(track => track.id !== trackId)] deletes exactly the
    track that carries the id. *)
Lemma filter_unique_id l1 t l2 :
  NoDup (track_id <$> l1 ++ t :: l2) →
  List.filter (λ track, negb (bool_decide (track_id track = track_id t)))
              (l1 ++ t :: l2) = l1 ++ l2.
Proof.
  intros [Hl1 Hl2]%unique_id_around.
  rewrite List.filter_app. simpl.
  rewrite bool_decide_eq_true_2 by done. simpl.
  rewrite !filter_keep_all; [done | |].
  - eapply Forall_impl; [exact Hl2|]. intros y Hy. simpl.
    by rewrite bool_decide_eq_false_2.
  - eapply Forall_impl; [exact Hl1|]. intros y Hy. simpl.
    by rewrite bool_decide_eq_false_2.
Qed.

Lemma findIndex_unique_id l1 t l2 :
  NoDup (track_id <$> l1 ++ t :: l2) →
  JS.findIndex (λ track, bool_decide (track_id track = track_id t))
               (l1 ++ t :: l2) = JS.length l1.
Proof.
  intros [Hl1 _]%unique_id_around.
  apply findIndex_first.
  - eapply Forall_impl; [exact Hl1|]. intros y Hy. simpl.
    by rewrite bool_decide_eq_false_2.
  - by rewrite bool_decide_eq_true_2.
Qed.

End PlaylistFacts.

Section RemoveTrack.
Implicit Types (s : App.State) (l : list Track) (t c : Track).

(** C6. Removing the selected track [t] (ids pairwise different)
    from the playlist [l1 ++ t :: l2] leaves [l1 ++ l2] and selects the
    item found at [t]'s old index in the new playlist, else the item
    just before that index, else nothing: the old successor of [t] when
    there is one, otherwise the old predecessor, otherwise "none". *)
Theorem handleRemoveTrack_selected s l1 t l2 c :
  App.playlist s = l1 ++ t :: l2 →
  NoDup (track_id <$> App.playlist s) →
  App.currentTrack s = Some c →
  track_id c = track_id t →
  let s' := App.handleRemoveTrack (track_id t) s in
  App.playlist s' = l1 ++ l2 ∧
  App.currentTrack s' =
    JS.at_index (App.playlist s') (JS.length l1)
    ||| JS.at_index (App.playlist s') (JS.length l1 - 1) ∧
  App.currentTrack s' =
    match l2 with
    | successor :: _ => Some successor
    | [] => last l1
    end.
Proof.
  intros Hpl Hids Hcur Hid s'. subst s'.
  unfold App.handleRemoveTrack, App.is_current.
  rewrite Hcur, Hpl in *.
  rewrite bool_decide_eq_true_2 by done.
  rewrite filter_unique_id, findIndex_unique_id by done.
  simpl. split_and!; [done| |].
  - by destruct (JS.at_index (l1 ++ l2) (JS.length l1)),
                (JS.at_index (l1 ++ l2) (JS.length l1 - 1)).
  - rewrite at_index_length_app, at_index_before_app.
    destruct l2; simpl; [|done]. by destruct (last l1).
Qed.

(** C10. Removing a track [t] whose id is not the selected track's
    (ids pairwise different) keeps the selection and the is-playing
    flag, and the playlist [l1 ++ t :: l2] becomes [l1 ++ l2]. *)
Theorem handleRemoveTrack_other s l1 t l2 :
  App.playlist s = l1 ++ t :: l2 →
  NoDup (track_id <$> App.playlist s) →
  (∀ c, App.currentTrack s = Some c → track_id c ≠ track_id t) →
  let s' := App.handleRemoveTrack (track_id t) s in
  App.currentTrack s' = App.currentTrack s ∧
  App.isPlaying s' = App.isPlaying s ∧
  App.playlist s' = l1 ++ l2.
Proof.
  intros Hpl Hids Hcur s'. subst s'.
  unfold App.handleRemoveTrack, App.is_current.
  rewrite Hpl in *. rewrite filter_unique_id by done.
  destruct (App.currentTrack s) as [c|] eqn:Hc; simpl; [|done].
  rewrite bool_decide_eq_false_2 by (by apply Hcur). done.
Qed.

(** Removing the selected middle track of three selects the old third. *)
Lemma handleRemoveTrack_selected_witness :
  let s' := App.handleRemoveTrack (track_id Sample.B) Sample.app in
  App.playlist s' = [Sample.A; Sample.C] ∧ App.currentTrack s' = Some Sample.C.
Proof.
  intros s'.
  destruct (handleRemoveTrack_selected Sample.app [Sample.A] Sample.B [Sample.C] Sample.B)
    as (Hplaylist & _ & Hcurrent);
    [reflexivity | apply (bool_decide_unpack _); vm_compute; exact I
    | reflexivity | reflexivity |].
  split; [exact Hplaylist | exact Hcurrent].
Defined.

(** Removing the selected last track of three selects the new last one. *)
Example handleRemoveTrack_last :
  let s' := App.handleRemoveTrack (track_id Sample.C)
              (Sample.app_with (Some Sample.C) [Sample.A; Sample.B; Sample.C]) in
  App.playlist s' = [Sample.A; Sample.B] ∧ App.currentTrack s' = Some Sample.B.
Proof. split; reflexivity. Qed.

(** Removing the only track selects nothing. *)
Example handleRemoveTrack_sole :
  let s' := App.handleRemoveTrack (track_id Sample.A)
              (Sample.app_with (Some Sample.A) [Sample.A]) in
  App.playlist s' = [] ∧ App.currentTrack s' = None.
Proof. split; reflexivity. Qed.

(** Removing the first of three while the second plays. *)
Lemma handleRemoveTrack_other_witness :
  let s' := App.handleRemoveTrack (track_id Sample.A) Sample.app in
  App.currentTrack s' = Some Sample.B ∧
  App.isPlaying s' = true ∧
  App.playlist s' = [Sample.B; Sample.C].
Proof.
  intros s'.
  apply (handleRemoveTrack_other Sample.app [] Sample.A [Sample.B; Sample.C]);
    [reflexivity | apply (bool_decide_unpack _); vm_compute; exact I |].
  intros c [= <-] Hid. apply (f_equal this) in Hid. vm_compute in Hid. discriminate.
Defined.

End RemoveTrack.

(** ** The analysis graph of [audio-utils] *)
Section AnalysisGraph.
Import AudioUtils.

(** Without [initializeAudioContext] the module variables stay [null]. *)
Lemma call_uninitialised (c : Call) : call initial c = initial.
Proof. by destruct c as [[el|]| | | |[]]. Qed.

Lemma calls_uninitialised (cs : list Call) : calls cs initial = initial.
Proof.
  unfold calls. induction cs as [|c cs IH]; simpl; [done|].
  by rewrite call_uninitialised.
Qed.

(** C7. Whatever calls other than [initializeAudioContext] were made
    on the module ([connectAudioElement] included, which returns at once
    without a context), [getAudioData] returns 128 bins, all of them
    zero. *)
Theorem getAudioData_uninitialised (cs : list Call) :
  let data := getAudioData (calls cs initial) in
  data = replicate 128 0 ∧
  JS.length data = 128 ∧
  Forall (λ magnitude, magnitude = 0) data.
Proof.
  intros data. subst data. rewrite calls_uninitialised.
  split_and!; [done | done |].
  unfold getAudioData. simpl. apply Forall_replicate. done.
Qed.

End AnalysisGraph.

(** ** The transport handlers of [AudioPlayer] *)
Section Transport.
Import AudioPlayer.

(** Unfolds a handler down to the function on worlds it denotes. *)
Ltac denote :=
  unfold dispatch, exec, completion, position, elementVolume,
    handlePlayPause, handleEnded, handlePlay, handlePause, handleNext,
    handlePrevious, handleSeek, handleVolumeChange, toggleMute,
    handleTimeUpdate, handleLoadedMetadata,
    startVisualization, animate, audio_play, context_resume,
    call_onTrackChange, assign_currentTime, assign_volume, audio_pause, emit,
    setIsPlaying, setCurrentTime, setDuration, setVolume, setIsMuted,
    setIsRepeat, setIsShuffle, setIsLoading, setError,
    unawaited, try_catch_finally,
    mbind, mret, M_bind, M_ret, bind, ret, gets, modify, throw.

(** Runs the unfolded handler where the ref is known to hold an
    element. *)
Ltac with_element H := repeat first [rewrite H | progress simpl].

(** *** Wrap-around arithmetic *)

Lemma remainder_next (i n : Z) :
  0 ≤ i → 0 < n → JS.remainder (i + 1) n = (i + 1) mod n.
Proof. intros. unfold JS.remainder. apply Z.rem_mod_nonneg; lia. Qed.

Lemma previous_wraps (i n : Z) :
  0 ≤ i < n →
  (if bool_decide (i = 0) then n - 1 else i - 1) = (i - 1 + n) mod n.
Proof.
  intros Hi. case_bool_decide as H0.
  - subst i. rewrite Z.mod_small; lia.
  - replace (i - 1 + n) with (i - 1 + 1 * n) by lia.
    rewrite Z.mod_add by lia. rewrite Z.mod_small; lia.
Qed.

(** C1. With shuffle off, on a playlist of [N ≥ 1] tracks with the
    cursor at [i] in [0, N), [handleNext] selects [(i + 1) mod N] and
    [handlePrevious] selects [(i - 1 + N) mod N]: that index is handed
    to the track-change callback and nothing else changes; for [N = 1]
    both are [i] again. *)
Theorem next_previous_wrap (props : Props) (env : Env) (w : World) :
  let N := JS.length (playlist props) in
  let i := currentTrackIndex props in
  1 ≤ N → 0 ≤ i < N →
  isShuffle (state w) = false →
  dispatch (handleNext props env) w
    = (Normal tt, notified props ((i + 1) mod N) w) ∧
  dispatch (handlePrevious props env) w
    = (Normal tt, notified props ((i - 1 + N) mod N) w) ∧
  (N = 1 → (i + 1) mod N = i ∧ (i - 1 + N) mod N = i).
Proof.
  intros N i HN Hi Hshuffle. subst N i. split_and!.
  - denote. rewrite Hshuffle.
    rewrite bool_decide_eq_false_2 by lia.
    rewrite remainder_next by lia. unfold notified. by destruct (onTrackChange props).
  - denote. rewrite Hshuffle.
    rewrite bool_decide_eq_false_2 by lia.
    rewrite previous_wraps by lia. unfold notified. by destruct (onTrackChange props).
  - intros H1. rewrite H1 in *. rewrite !Z.mod_1_r. lia.
Qed.

Lemma next_previous_wrap_witness :
  dispatch (handleNext (Sample.props [Sample.A; Sample.B; Sample.C] 2)
                       Sample.accepting) Sample.mounted
    = (Normal tt, with_emitted (TrackChange 0) Sample.mounted) ∧
  dispatch (handlePrevious (Sample.props [Sample.A; Sample.B; Sample.C] 0)
                           Sample.accepting) Sample.mounted
    = (Normal tt, with_emitted (TrackChange 2) Sample.mounted).
Proof.
  split.
  - apply (next_previous_wrap (Sample.props [Sample.A; Sample.B; Sample.C] 2)
             Sample.accepting Sample.mounted); simpl; try reflexivity;
      unfold JS.length; simpl; lia.
  - apply (next_previous_wrap (Sample.props [Sample.A; Sample.B; Sample.C] 0)
             Sample.accepting Sample.mounted); simpl; try reflexivity;
      unfold JS.length; simpl; lia.
Defined.

(** C9. On an empty playlist [handleNext] and [handlePrevious]
    complete without calling the track-change callback and without
    changing anything, whatever the shuffle setting and the cursor. *)
Theorem next_previous_empty (props : Props) (env : Env) (w : World) :
  playlist props = [] →
  dispatch (handleNext props env) w = (Normal tt, w) ∧
  dispatch (handlePrevious props env) w = (Normal tt, w).
Proof.
  intros Hempty. denote. rewrite Hempty. simpl. done.
Qed.

Lemma next_previous_empty_witness :
  dispatch (handleNext (Sample.props [] 0) Sample.accepting) Sample.mounted
    = (Normal tt, Sample.mounted) ∧
  dispatch (handlePrevious (Sample.props [] 0) Sample.accepting) Sample.mounted
    = (Normal tt, Sample.mounted).
Proof.
  apply (next_previous_empty (Sample.props [] 0) Sample.accepting Sample.mounted).
  reflexivity.
Defined.

(** *** Seeking *)

(** C8. With an element present, [handleSeek([p])] assigns
    [(p / 100) * duration] to the element's position and writes the
    same value to the position state in the same run, before any
    time-update callback. *)
Theorem handleSeek_position (value : SliderValue) (w : World) (el : HTMLAudioElement) :
  audioRef w = Some el →
  let p := value !!! 0%fin in
  let d := duration (state w) in
  let w' := exec (dispatch (λ snap, handleSeek snap value)) w in
  completion (dispatch (λ snap, handleSeek snap value)) w = Normal tt ∧
  position w' = Some (p / Qc_of_Z 100 * d)%Qc ∧
  currentTime (state w') = (p / Qc_of_Z 100 * d)%Qc.
Proof.
  intros Hel p d w'. subst p d w'. denote. by with_element Hel.
Qed.

(** [seek([50])] on a track of 180 seconds puts the position at 90. *)
Lemma handleSeek_position_witness :
  let w' := exec (dispatch (λ snap, handleSeek snap (Sample.slider 50))) Sample.loaded in
  position w' = Some (Qc_of_Z 90) ∧ currentTime (state w') = Qc_of_Z 90.
Proof.
  intros w'.
  destruct (handleSeek_position (Sample.slider 50) Sample.loaded Sample.element)
    as (_ & Hpos & Hstate); [reflexivity|].
  assert (Heq : ((Sample.slider 50 !!! 0%fin) / Qc_of_Z 100
                 * duration (state Sample.loaded))%Qc = Qc_of_Z 90)
    by (apply Qc_is_canon; reflexivity).
  rewrite Heq in Hpos, Hstate. split; [exact Hpos | exact Hstate].
Defined.

(** *** Volume and mute *)

Lemma percent_zero (x : Qc) : (x / Qc_of_Z 100 = 0 ↔ x = 0)%Qc.
Proof.
  split.
  - intros [H|H]%Qcmult_integral; [done|].
    apply (f_equal this) in H. vm_compute in H. discriminate.
  - intros ->. apply Qcmult_0_l.
Qed.

(** [newVolume === 0] against the slider value. *)
Lemma muted_flag (x : Qc) :
  let newVolume := (x / Qc_of_Z 100)%Qc in
  (bool_decide (newVolume = 0%Qc) = true ↔ newVolume = 0%Qc) ∧
  (x = 0%Qc → bool_decide (newVolume = 0%Qc) = true) ∧
  ((0 < x)%Qc → bool_decide (newVolume = 0%Qc) = false).
Proof.
  intros newVolume. subst newVolume. split_and!.
  - apply bool_decide_eq_true.
  - intros H0. apply bool_decide_eq_true. by apply (proj2 (percent_zero x)).
  - intros Hpos. apply bool_decide_eq_false. intros H0.
    apply (proj1 (percent_zero x)) in H0.
    rewrite H0 in Hpos. by apply Qclt_not_eq in Hpos.
Qed.

(** C4. After [handleVolumeChange([x])] the volume is [x / 100] and
    is-muted is true exactly when that volume is zero: [x = 0] mutes,
    any [x > 0] unmutes. *)
Theorem handleVolumeChange_muted (value : SliderValue) (w : World) :
  let x := value !!! 0%fin in
  let w' := exec (handleVolumeChange value) w in
  completion (handleVolumeChange value) w = Normal tt ∧
  volume (state w') = (x / Qc_of_Z 100)%Qc ∧
  (isMuted (state w') = true ↔ volume (state w') = 0%Qc) ∧
  (x = 0%Qc → isMuted (state w') = true) ∧
  ((0 < x)%Qc → isMuted (state w') = false).
Proof.
  intros x w'. subst x w'. denote.
  destruct (audioRef w) as [el|] eqn:Hel; with_element Hel.
  all: split_and!; [done | done | apply muted_flag..].
Qed.

(** *** The element follows the remembered volume *)

(** Closes a goal of [audible_at_volume] once the world is explicit. *)
Ltac same_volume :=
  simpl; eexists; split; [reflexivity | simpl; solve [auto | done]].

Lemma fire_audible_at_volume (props : Props) (env : Env) (a : Action) (w : World) :
  audible_at_volume w → audible_at_volume (exec (fire props env a) w).
Proof.
  intros (el & Hel & Hvol). unfold audible_at_volume, fire.
  destruct w as [st ref canvas ctx anim u ev]; simpl in Hel, Hvol; subst ref.
  destruct a; denote; simpl.
  - destruct (isPlaying st), (currentTrack props), ctx as [[[]]|],
      (resume_ok env), (play_ok env), anim as [handle|], canvas; simpl;
      try case_bool_decide; simpl; same_volume.
  - same_volume.
  - same_volume.
  - destruct (isRepeat st), (isShuffle st), (currentTrack props), ctx as [[[]]|],
      (resume_ok env), (play_ok env), (isPlaying st), canvas,
      (onTrackChange props); simpl;
      try case_bool_decide; simpl; same_volume.
  - same_volume.
  - same_volume.
  - destruct (isMuted st) eqn:Hmuted; simpl; same_volume.
  - case_bool_decide; destruct (isShuffle st), (onTrackChange props); simpl;
      same_volume.
  - case_bool_decide; destruct (isShuffle st), (onTrackChange props); simpl;
      same_volume.
  - same_volume.
  - same_volume.
Qed.

(** Every reachable world has its element at the remembered volume
    unless muted: the volume [toggleMute] restores is the one the
    element had before the mute. *)
Lemma reachable_audible_at_volume (w : World) :
  reachable w → audible_at_volume w.
Proof.
  induction 1 as [w Hstate Hvol | w props env a _ IH].
  - destruct (audioRef w) as [el|] eqn:Hel; [|done].
    exists el. split; [done|]. intros _. rewrite Hstate. simpl.
    by injection Hvol.
  - by apply fire_audible_at_volume.
Qed.

(** C3. From an unmuted state with an element, [toggleMute] silences
    the element and keeps the remembered volume [v]; a second
    [toggleMute] sets the element's volume to exactly [v] (also when
    [v] is 0) and clears is-muted.  When the element played at [v]
    before, as it does in every reachable world, the two toggles
    restore the whole world. *)
Theorem toggleMute_round_trip (w : World) (el : HTMLAudioElement) :
  audioRef w = Some el →
  isMuted (state w) = false →
  let v := volume (state w) in
  let muted := exec (dispatch toggleMute) w in
  let restored := exec (dispatch toggleMute) muted in
  (elementVolume muted = Some 0%Qc ∧
   isMuted (state muted) = true ∧
   volume (state muted) = v) ∧
  (elementVolume restored = Some v ∧
   isMuted (state restored) = false ∧
   volume (state restored) = v) ∧
  (el_volume el = v → restored = w) ∧
  (reachable w → restored = w).
Proof.
  intros Hel Hmuted v muted restored.
  assert (Hsame : el_volume el = v → restored = w).
  { subst v muted restored.
    destruct w as [[] ? ? ? ? ? ?]; simpl in *. subst.
    destruct el; simpl. intros <-. reflexivity. }
  split; [|split; [|split; [exact Hsame|]]].
  - subst v muted. destruct w as [[] ? ? ? ? ? ?]; simpl in *. by subst.
  - subst v muted restored. destruct w as [[] ? ? ? ? ? ?]; simpl in *. by subst.
  - intros (el' & Hel' & Hvol)%reachable_audible_at_volume.
    apply Hsame. rewrite Hel in Hel'. injection Hel' as <-. by apply Hvol.
Qed.

Lemma toggleMute_round_trip_witness :
  let w := exec (handleVolumeChange (Sample.slider 30)) Sample.loaded in
  let restored := exec (dispatch toggleMute) (exec (dispatch toggleMute) w) in
  elementVolume restored = Some (volume (state w)) ∧
  isMuted (state restored) = false ∧
  restored = w.
Proof.
  intros w restored.
  destruct (toggleMute_round_trip w
              {| el_currentTime := 0%Qc; el_duration := Qc_of_Z 180;
                 el_volume := volume (state w); el_paused := true |})
    as (_ & (Hvol & Hmuted & _) & Hsame & _); [reflexivity | reflexivity |].
  split_and!; [exact Hvol | exact Hmuted | apply Hsame; reflexivity].
Defined.

(** *** Exceptions stay inside [handlePlay] *)

Lemma never_throws_ret {A} (a : A) : never_throws (mret a : M A).
Proof. intros w. by exists a. Qed.

Lemma never_throws_modify (f : World → World) : never_throws (modify f).
Proof. intros w. by exists tt. Qed.

Lemma never_throws_bind {A B} (m : M A) (k : A → M B) :
  never_throws m → (∀ a, never_throws (k a)) → never_throws (m ≫= k).
Proof.
  intros Hm Hk w. unfold never_throws, completion, mbind, M_bind, bind in *.
  destruct (Hm w) as [a Ha].
  destruct (m w) as [r w1]; simpl in Ha; subst r. apply Hk.
Qed.

(** A [try] whose [catch] and [finally] blocks complete normally
    completes normally, whatever its body does. *)
Lemma never_throws_try_catch_finally {A}
    (body : M A) (handler : Exn → M A) (finalizer : M unit) :
  (∀ e, never_throws (handler e)) → never_throws finalizer →
  never_throws (try_catch_finally body handler finalizer).
Proof.
  intros Hhandler Hfinalizer w.
  unfold never_throws, completion, try_catch_finally in *.
  destruct (body w) as [[a|e] w1].
  - destruct (Hfinalizer w1) as [u Hu].
    destruct (finalizer w1) as [r w3]; simpl in Hu; subst r. by exists a.
  - destruct (Hhandler e w1) as [a Ha].
    destruct (handler e w1) as [r w2]; simpl in Ha; subst r.
    destruct (Hfinalizer w2) as [u Hu].
    destruct (finalizer w2) as [r w3]; simpl in Hu; subst r. by exists a.
Qed.

Lemma handlePlay_never_throws (props : Props) (env : Env) (snap : State) :
  never_throws (handlePlay props env snap).
Proof.
  intros w. exists tt. unfold handlePlay, completion, mbind, M_bind, bind, gets.
  destruct (audioRef w), (currentTrack props); try reflexivity.
  edestruct (never_throws_try_catch_finally (A := unit)) as [[] H]; [| |exact H].
  - intros e. apply never_throws_bind; intros; apply never_throws_modify.
  - apply never_throws_modify.
Qed.

(** What [handlePlay] leaves untouched. *)
Lemma handlePlay_frame (props : Props) (env : Env) (snap : State) (w : World) :
  let w' := exec (handlePlay props env snap) w in
  trackChanges w' = trackChanges w ∧ position w' = position w.
Proof.
  unfold trackChanges. denote.
  destruct w as [st [el|] canvas [[[]]|] anim u ev],
    (currentTrack props), (resume_ok env), (play_ok env), (isPlaying snap), canvas;
    simpl; rewrite ?omap_app, ?app_nil_r; done.
Qed.

(** What a rejected [play()] leaves behind. *)
Lemma handlePlay_rejected (props : Props) (env : Env) (snap : State) (w : World) :
  is_Some (audioRef w) → is_Some (currentTrack props) → play_ok env = false →
  let s' := state (exec (handlePlay props env snap) w) in
  isPlaying s' = isPlaying (state w) ∧
  isLoading s' = false ∧
  error s' = Some "Failed to play audio. Please check the file format."%string.
Proof.
  intros [el Hel] [t Ht] Hplay. denote. rewrite Hel, Ht, Hplay.
  destruct w as [st a canvas [[[]]|] anim u ev], (resume_ok env);
    simpl in *; subst; done.
Qed.

(** C2 (as the code has it). With an element and a current track,
    when the element rejects the play command [handlePlay] completes
    normally, leaves is-playing as it was, sets loading to false and
    sets the error message. *)
Theorem handlePlay_failure (props : Props) (env : Env) (w : World) :
  is_Some (audioRef w) →
  is_Some (currentTrack props) →
  play_ok env = false →
  let w' := exec (dispatch (handlePlay props env)) w in
  completion (dispatch (handlePlay props env)) w = Normal tt ∧
  isPlaying (state w') = isPlaying (state w) ∧
  isLoading (state w') = false ∧
  error (state w') = Some "Failed to play audio. Please check the file format."%string.
Proof.
  intros Hel Ht Hplay w'. split.
  - destruct (handlePlay_never_throws props env (state w) w) as [[] H]. exact H.
  - subst w'. unfold dispatch, exec.
    by apply (handlePlay_rejected props env (state w) w).
Qed.

Lemma handlePlay_failure_witness :
  let w' := exec (dispatch (handlePlay (Sample.props [Sample.A; Sample.B] 0)
                                       Sample.rejecting)) Sample.loaded in
  isPlaying (state w') = false ∧
  isLoading (state w') = false ∧
  error (state w') = Some "Failed to play audio. Please check the file format."%string.
Proof.
  intros w'.
  destruct (handlePlay_failure (Sample.props [Sample.A; Sample.B] 0)
              Sample.rejecting Sample.loaded) as (_ & H);
    [by eexists | by eexists | reflexivity | exact H].
Defined.

(** C2 (as stated) fails: when the track that just ended is played
    again under repeat-one and the element rejects the command,
    is-playing stays true. *)
Lemma handlePlay_failure_counterexample :
  ¬ play_failure_rolls_back (Sample.props [Sample.A; Sample.B] 0)
      Sample.rejecting Sample.playing_on_repeat.
Proof.
  intros H. destruct H as (_ & Hplaying & _);
    [by eexists | by eexists | reflexivity |].
  vm_compute in Hplaying. discriminate.
Qed.

(** *** End of a track *)

(** Calling [handlePlay] without awaiting it is running it. *)
Lemma unawaited_handlePlay (props : Props) (env : Env) (snap : State) (w : World) :
  unawaited (handlePlay props env snap) w
    = (Normal tt, exec (handlePlay props env snap) w).
Proof.
  destruct (handlePlay_never_throws props env snap w) as [[] H].
  unfold unawaited, exec, completion in *.
  destruct (handlePlay props env snap w) as [r w1]; simpl in *. by subst r.
Qed.

(** C5. When a track ends with repeat-one on, [handleEnded] puts the
    element's position at 0 and runs [handlePlay] with the same props,
    hence on the same track, without telling the parent to change the
    track; with repeat-one off it is [handleNext]. *)
Theorem handleEnded_transition (props : Props) (env : Env) (w : World) :
  (isRepeat (state w) = true →
   ∀ el, audioRef w = Some el →
     let rewound := exec (assign_currentTime 0%Qc) w in
     let w' := exec (dispatch (handleEnded props env)) w in
     completion (dispatch (handleEnded props env)) w = Normal tt ∧
     position rewound = Some 0%Qc ∧
     w' = exec (handlePlay props env (state w)) rewound ∧
     position w' = Some 0%Qc ∧
     trackChanges w' = trackChanges w) ∧
  (isRepeat (state w) = false →
   dispatch (handleEnded props env) w = dispatch (handleNext props env) w).
Proof.
  split.
  - intros Hrepeat el Hel rewound w'.
    assert (Hrewound : assign_currentTime 0%Qc w = (Normal tt, rewound)).
    { subst rewound. unfold assign_currentTime, exec, mbind, M_bind, bind, gets.
      by rewrite Hel. }
    assert (Hposition : position rewound = Some 0%Qc).
    { subst rewound. denote. by with_element Hel. }
    assert (Hrun : dispatch (handleEnded props env) w
                   = (Normal tt, exec (handlePlay props env (state w)) rewound)).
    { unfold dispatch, handleEnded. rewrite Hrepeat.
      unfold mbind, M_bind, bind. rewrite Hrewound.
      apply unawaited_handlePlay. }
    assert (Hw' : w' = exec (handlePlay props env (state w)) rewound).
    { subst w'. unfold exec at 1. by rewrite Hrun. }
    destruct (handlePlay_frame props env (state w) rewound) as [Hchanges Hpos].
    split_and!.
    + unfold completion. by rewrite Hrun.
    + exact Hposition.
    + exact Hw'.
    + by rewrite Hw', Hpos.
    + rewrite Hw', Hchanges. subst rewound. unfold trackChanges. denote.
      by with_element Hel.
  - intros Hrepeat. unfold dispatch, handleEnded. by rewrite Hrepeat.
Qed.

Lemma handleEnded_transition_witness :
  let props := Sample.props [Sample.A; Sample.B] 0 in
  let w := Sample.playing_on_repeat in
  position (exec (dispatch (handleEnded props Sample.accepting)) w) = Some 0%Qc ∧
  trackChanges (exec (dispatch (handleEnded props Sample.accepting)) w) = [] ∧
  dispatch (handleEnded props Sample.accepting) Sample.loaded
    = (Normal tt, with_emitted (TrackChange 1) Sample.loaded).
Proof.
  intros props w.
  destruct (handleEnded_transition props Sample.accepting w) as [Hrepeat _].
  destruct (handleEnded_transition props Sample.accepting Sample.loaded) as [_ Hnext].
  destruct (Hrepeat eq_refl _ eq_refl) as (_ & _ & _ & Hpos & Hchanges).
  split_and!; [exact Hpos | exact Hchanges |].
  rewrite (Hnext eq_refl). reflexivity.
Defined.

End Transport.

(** ** More on arrays *)
Section SearchFacts.
Context {A : Type}.
Implicit Types (p : A → bool) (l : list A) (x : A).

Lemma findIndex_from_none p l i :
  Forall (λ y, p y = false) l → JS.findIndex_from p l i = -1.
Proof.
  intros Hl. revert i. induction Hl as [|y l Hy _ IH]; intros i; simpl; [done|].
  by rewrite Hy, IH.
Qed.

Lemma findIndex_none p l :
  Forall (λ y, p y = false) l → JS.findIndex p l = -1.
Proof. apply findIndex_from_none. Qed.

(** A list with a match splits at its first match. *)
Lemma first_match p l x :
  x ∈ l → p x = true →
  ∃ l1 y l2, l = l1 ++ y :: l2 ∧ Forall (λ z, p z = false) l1 ∧ p y = true.
Proof.
  intros Hin Hx. induction l as [|z l IH]; [by apply not_elem_of_nil in Hin|].
  destruct (p z) eqn:Hz.
  - exists [], z, l. by split_and!.
  - apply elem_of_cons in Hin as [->|Hin]; [congruence|].
    destruct (IH Hin) as (l1 & y & l2 & -> & Hl1 & Hy).
    exists (z :: l1), y, l2. split_and!; [done| |done]. by constructor.
Qed.

Lemma at_index_zero l : JS.at_index l 0 = head l.
Proof. by destruct l. Qed.

Lemma at_index_last l : JS.at_index l (JS.length l - 1) = last l.
Proof.
  pose proof (at_index_before_app l []) as H. by rewrite app_nil_r in H.
Qed.

Lemma at_index_app_cons l1 x l2 : JS.at_index (l1 ++ x :: l2) (JS.length l1) = Some x.
Proof. by rewrite at_index_length_app. Qed.

Lemma filter_filter_same p l : List.filter p (List.filter p l) = List.filter p l.
Proof.
  induction l as [|y l IH]; simpl; [done|].
  destruct (p y) eqn:Hy; simpl; [|done]. by rewrite Hy, IH.
Qed.

End SearchFacts.

(** ** Stepping through and editing the playlist of [App] *)
Section PlaylistSteps.
Import App.
Implicit Types (s : State) (l : list Track) (t c : Track).

(** Arithmetic on the lengths of explicit lists. *)
Ltac lengths :=
  unfold JS.length in *; rewrite ?length_app in *; simpl length in *; lia.

(** Where [findIndex] finds the selected track. *)
Lemma currentIndex_unique_id s l1 t l2 c :
  playlist s = l1 ++ t :: l2 →
  NoDup (track_id <$> playlist s) →
  currentTrack s = Some c → track_id c = track_id t →
  JS.findIndex (has_current_id s) (playlist s) = JS.length l1.
Proof.
  intros Hpl Hids Hcur Hid. rewrite Hpl in *.
  destruct (unique_id_around _ _ _ Hids) as [Hl1 _].
  apply findIndex_first; unfold has_current_id; rewrite Hcur.
  - eapply Forall_impl; [exact Hl1|]. intros y Hy. simpl.
    apply bool_decide_eq_false_2. congruence.
  - by apply bool_decide_eq_true_2.
Qed.

Lemma handleNextTrack_at s l1 t l2 c :
  playlist s = l1 ++ t :: l2 →
  NoDup (track_id <$> playlist s) →
  currentTrack s = Some c → track_id c = track_id t →
  handleNextTrack s = setCurrentTrack (head (l2 ++ l1 ++ [t])) s.
Proof.
  intros Hpl Hids Hcur Hid. unfold handleNextTrack.
  rewrite (currentIndex_unique_id s l1 t l2 c) by done.
  rewrite Hpl.
  rewrite bool_decide_eq_false_2 by lengths. f_equal.
  unfold JS.remainder. destruct l2 as [|n l2].
  - replace (JS.length (l1 ++ [t])) with (JS.length l1 + 1) by lengths.
    rewrite Z.rem_same by lengths.
    rewrite at_index_zero. simpl. by destruct l1.
  - rewrite Z.rem_small by lengths.
    replace (l1 ++ t :: n :: l2) with ((l1 ++ [t]) ++ n :: l2)
      by (by rewrite <- app_assoc).
    replace (JS.length l1 + 1) with (JS.length (l1 ++ [t])) by lengths.
    by rewrite at_index_length_app.
Qed.

Lemma handlePreviousTrack_at s l1 t l2 c :
  playlist s = l1 ++ t :: l2 →
  NoDup (track_id <$> playlist s) →
  currentTrack s = Some c → track_id c = track_id t →
  handlePreviousTrack s = setCurrentTrack (last (t :: l2 ++ l1)) s.
Proof.
  intros Hpl Hids Hcur Hid. unfold handlePreviousTrack.
  rewrite (currentIndex_unique_id s l1 t l2 c) by done.
  rewrite Hpl.
  rewrite bool_decide_eq_false_2 by lengths. f_equal.
  destruct l1 as [|f l1 _] using rev_ind.
  - rewrite bool_decide_eq_true_2 by done. simpl. rewrite app_nil_r.
    apply (at_index_last (t :: l2)).
  - rewrite bool_decide_eq_false_2 by lengths.
    rewrite at_index_before_app, last_snoc.
    replace (t :: l2 ++ l1 ++ [f]) with ((t :: l2 ++ l1) ++ [f])
      by (simpl; by rewrite <- !app_assoc).
    by rewrite last_snoc.
Qed.

Lemma setCurrentTrack_back s t x :
  currentTrack s = Some t → setCurrentTrack (Some t) (setCurrentTrack x s) = s.
Proof. intros H. destruct s; simpl in *. by subst. Qed.

Lemma last_ends l t : last (l ++ [t]) = Some t.
Proof. apply last_snoc. Qed.

(** X1. In a playlist with pairwise different ids where the selected
    track [t] stands between [l1] and [l2], [handleNextTrack] selects
    the track after [t], or the first track when [t] is the last one, and
    [handlePreviousTrack] selects the track before [t], or the last track
    when [t] is the first one; the playlist stays as it is. *)
Theorem next_previous_track_positions s l1 t l2 c :
  playlist s = l1 ++ t :: l2 →
  NoDup (track_id <$> playlist s) →
  currentTrack s = Some c → track_id c = track_id t →
  currentTrack (handleNextTrack s) = head (l2 ++ l1 ++ [t]) ∧
  currentTrack (handlePreviousTrack s) = last (t :: l2 ++ l1) ∧
  playlist (handleNextTrack s) = playlist s ∧
  playlist (handlePreviousTrack s) = playlist s.
Proof.
  intros Hpl Hids Hcur Hid.
  rewrite (handleNextTrack_at s l1 t l2 c), (handlePreviousTrack_at s l1 t l2 c) by done.
  done.
Qed.

Lemma next_previous_track_positions_witness :
  currentTrack (handleNextTrack (Sample.app_with (Some Sample.C)
                                   [Sample.A; Sample.B; Sample.C])) = Some Sample.A ∧
  currentTrack (handlePreviousTrack (Sample.app_with (Some Sample.A)
                                       [Sample.A; Sample.B; Sample.C])) = Some Sample.C.
Proof.
  split.
  - apply (next_previous_track_positions
             (Sample.app_with (Some Sample.C) [Sample.A; Sample.B; Sample.C])
             [Sample.A; Sample.B] Sample.C [] Sample.C);
      [reflexivity | apply (bool_decide_unpack _); vm_compute; exact I
      | reflexivity | reflexivity].
  - apply (next_previous_track_positions
             (Sample.app_with (Some Sample.A) [Sample.A; Sample.B; Sample.C])
             [] Sample.A [Sample.B; Sample.C] Sample.A);
      [reflexivity | apply (bool_decide_unpack _); vm_compute; exact I
      | reflexivity | reflexivity].
Defined.

(** X2. In a playlist with pairwise different ids whose selected
    track is one of its entries, [handleNextTrack] followed by
    [handlePreviousTrack] gives back the state of [App], and so does
    [handlePreviousTrack] followed by [handleNextTrack]. *)
Theorem next_previous_track_round_trip s l1 t l2 :
  playlist s = l1 ++ t :: l2 →
  NoDup (track_id <$> playlist s) →
  currentTrack s = Some t →
  handlePreviousTrack (handleNextTrack s) = s ∧
  handleNextTrack (handlePreviousTrack s) = s.
Proof.
  intros Hpl Hids Hcur. split.
  - rewrite (handleNextTrack_at s l1 t l2 t) by done.
    destruct l2 as [|n l2]; [destruct l1 as [|f l1]|]; simpl head.
    + rewrite (handlePreviousTrack_at _ [] t [] t) by done.
      by apply setCurrentTrack_back.
    + rewrite (handlePreviousTrack_at _ [] f (l1 ++ [t]) f) by done.
      rewrite app_nil_r, app_comm_cons, last_ends.
      by apply setCurrentTrack_back.
    + rewrite (handlePreviousTrack_at _ (l1 ++ [t]) n l2 n);
        [| by (simpl; rewrite Hpl, <- app_assoc) | done | done | done].
      replace (n :: l2 ++ l1 ++ [t]) with ((n :: l2 ++ l1) ++ [t])
        by (simpl; by rewrite <- !app_assoc).
      rewrite last_ends. by apply setCurrentTrack_back.
  - rewrite (handlePreviousTrack_at s l1 t l2 t) by done.
    destruct l1 as [|p l1 _] using rev_ind; [destruct l2 as [|n l2 _] using rev_ind|].
    + rewrite (handleNextTrack_at _ [] t [] t) by done.
      by apply setCurrentTrack_back.
    + rewrite app_nil_r, app_comm_cons, last_ends.
      rewrite (handleNextTrack_at _ (t :: l2) n [] n);
        [| by (simpl; rewrite Hpl) | done | done | done].
      by apply setCurrentTrack_back.
    + replace (t :: l2 ++ l1 ++ [p]) with ((t :: l2 ++ l1) ++ [p])
        by (simpl; by rewrite <- !app_assoc).
      rewrite last_ends.
      rewrite (handleNextTrack_at _ l1 p (t :: l2) p);
        [| by (simpl; rewrite Hpl, <- app_assoc) | done | done | done].
      by apply setCurrentTrack_back.
Qed.

Lemma next_previous_track_round_trip_witness :
  handlePreviousTrack (handleNextTrack Sample.app) = Sample.app ∧
  handleNextTrack (handlePreviousTrack Sample.app) = Sample.app.
Proof.
  apply (next_previous_track_round_trip Sample.app [Sample.A] Sample.B [Sample.C]);
    [reflexivity | apply (bool_decide_unpack _); vm_compute; exact I | reflexivity].
Defined.

(** X3. When no track of a non-empty playlist carries the id of the
    selection (or nothing is selected), [handleNextTrack] selects the
    first track, whereas [handlePreviousTrack] leaves nothing selected. *)
Theorem next_previous_track_unknown s :
  playlist s ≠ [] →
  Forall (λ t, has_current_id s t = false) (playlist s) →
  currentTrack (handleNextTrack s) = head (playlist s) ∧
  currentTrack (handlePreviousTrack s) = None.
Proof.
  intros Hne Hunknown. unfold handleNextTrack, handlePreviousTrack.
  rewrite findIndex_none by done.
  destruct (playlist s) as [|f l] eqn:Hpl; [done|].
  rewrite !bool_decide_eq_false_2 by lengths. simpl. split; [|done].
  unfold JS.remainder. rewrite Z.rem_0_l by lengths. done.
Qed.

Lemma next_previous_track_unknown_witness :
  let s := Sample.app_with None [Sample.A; Sample.B] in
  currentTrack (handleNextTrack s) = Some Sample.A ∧
  currentTrack (handlePreviousTrack s) = None.
Proof.
  intros s.
  apply (next_previous_track_unknown s); [done|].
  repeat constructor.
Defined.

(** *** The selection stays in the playlist *)

Lemma at_index_in_range l (i : Z) :
  0 ≤ i < JS.length l → ∃ x, JS.at_index l i = Some x ∧ x ∈ l.
Proof.
  intros Hi. unfold JS.at_index. rewrite bool_decide_eq_false_2 by lia.
  destruct (lookup_lt_is_Some_2 l (Z.to_nat i)) as [x Hx]; [lengths|].
  exists x. split; [done|]. by eapply list_elem_of_lookup_2.
Qed.

(** With the selection in the playlist, [findIndex] finds it. *)
Lemma currentIndex_in_range s c :
  currentTrack s = Some c → c ∈ playlist s →
  0 ≤ JS.findIndex (has_current_id s) (playlist s) < JS.length (playlist s).
Proof.
  intros Hcur Hin.
  destruct (first_match (has_current_id s) (playlist s) c Hin)
    as (l1 & y & l2 & Hpl & Hl1 & Hy).
  { unfold has_current_id. rewrite Hcur. by apply bool_decide_eq_true_2. }
  rewrite Hpl, findIndex_first by done. lengths.
Qed.

Lemma selection_after_select s x :
  match x with Some c => c ∈ playlist s | None => playlist s = [] end →
  selection_consistent (setCurrentTrack x s).
Proof. done. Qed.

Lemma handleNextTrack_consistent s :
  selection_consistent s → selection_consistent (handleNextTrack s).
Proof.
  intros Hs. unfold handleNextTrack. case_bool_decide as Hempty; [done|].
  unfold selection_consistent in Hs.
  destruct (currentTrack s) as [c|] eqn:Hcur; [|rewrite Hs in Hempty; done].
  pose proof (currentIndex_in_range s c Hcur Hs) as Hi.
  destruct (at_index_in_range (playlist s)
              (JS.remainder (JS.findIndex (has_current_id s) (playlist s) + 1)
                            (JS.length (playlist s)))) as (x & Hx & Hin).
  { unfold JS.remainder. rewrite Z.rem_mod_nonneg by lia.
    apply Z.mod_pos_bound. lia. }
  apply selection_after_select. by rewrite Hx.
Qed.

Lemma handlePreviousTrack_consistent s :
  selection_consistent s → selection_consistent (handlePreviousTrack s).
Proof.
  intros Hs. unfold handlePreviousTrack. case_bool_decide as Hempty; [done|].
  unfold selection_consistent in Hs.
  destruct (currentTrack s) as [c|] eqn:Hcur; [|rewrite Hs in Hempty; done].
  pose proof (currentIndex_in_range s c Hcur Hs) as Hi.
  set (currentIndex := JS.findIndex (has_current_id s) (playlist s)) in *.
  destruct (at_index_in_range (playlist s)
              (if bool_decide (currentIndex = 0)
               then JS.length (playlist s) - 1 else currentIndex - 1))
    as (x & Hx & Hin).
  { case_bool_decide; lia. }
  apply selection_after_select. by rewrite Hx.
Qed.

Lemma handleRemoveTrack_consistent s (trackId : Qc) :
  selection_consistent s → selection_consistent (handleRemoveTrack trackId s).
Proof.
  intros Hs. unfold selection_consistent in Hs.
  unfold handleRemoveTrack, is_current.
  set (keep := λ track : Track, negb (bool_decide (track_id track = trackId))).
  destruct (currentTrack s) as [c|] eqn:Hcur.
  - case_bool_decide as Hid.
    + destruct (first_match (λ track, bool_decide (track_id track = trackId))
                  (playlist s) c Hs) as (l1 & y & l2 & Hpl & Hl1 & Hy).
      { by apply bool_decide_eq_true_2. }
      rewrite Hpl, findIndex_first by done.
      assert (Hdrop : keep y = false) by (unfold keep; by rewrite Hy).
      rewrite List.filter_app. simpl. rewrite Hdrop.
      rewrite (filter_keep_all keep l1)
        by (eapply Forall_impl; [exact Hl1|]; intros z Hz; unfold keep; by rewrite Hz).
      rewrite at_index_length_app, at_index_before_app.
      unfold selection_consistent. simpl.
      destruct (List.filter keep l2) as [|h k]; simpl.
      * destruct l1 as [|z l1 _] using rev_ind; [done|].
        rewrite last_snoc. simpl. rewrite app_nil_r. set_solver.
      * set_solver.
    + unfold selection_consistent. simpl. rewrite Hcur.
      apply list_elem_of_In, filter_In. split; [by apply list_elem_of_In|].
      unfold keep. by rewrite bool_decide_eq_false_2.
  - unfold selection_consistent. simpl. rewrite Hcur, Hs. done.
Qed.

Lemma handleFileUpload_consistent s (files : list (File * Stamp)) :
  selection_consistent s → selection_consistent (handleFileUpload files s).
Proof.
  intros Hs. unfold selection_consistent in *. unfold handleFileUpload.
  destruct (currentTrack s) as [c|] eqn:Hcur; simpl.
  - rewrite Hcur. set_solver.
  - rewrite Hs. destruct files as [|upload files]; simpl; [by rewrite Hcur|].
    set_solver.
Qed.

(** X4. Every action the page offers keeps the selection consistent
    with the playlist: the selected track is a track of the playlist, and
    nothing is selected only when the playlist is empty. *)
Theorem step_selection_consistent (a : Action) s :
  selection_consistent s → offered a s → selection_consistent (step a s).
Proof.
  intros Hs Ha. destruct a as [files|track|trackId| |]; simpl in *.
  - by apply handleFileUpload_consistent.
  - done.
  - by apply handleRemoveTrack_consistent.
  - by apply handleNextTrack_consistent.
  - by apply handlePreviousTrack_consistent.
Qed.

Lemma step_selection_consistent_witness :
  selection_consistent (step (RemoveTrack (track_id Sample.B)) Sample.app).
Proof.
  apply (step_selection_consistent (RemoveTrack (track_id Sample.B)) Sample.app);
    [|exact I].
  unfold selection_consistent. simpl. set_solver.
Defined.

(** *** Removing for good *)

Lemma at_index_nil (i : Z) : JS.at_index ([] : list Track) i = None.
Proof. unfold JS.at_index. by case_bool_decide. Qed.

Lemma at_index_elem l (i : Z) t : JS.at_index l i = Some t → t ∈ l.
Proof.
  unfold JS.at_index. case_bool_decide; [done|].
  apply list_elem_of_lookup_2.
Qed.

Lemma kept_other_id (trackId : Qc) l t :
  t ∈ List.filter (λ track, negb (bool_decide (track_id track = trackId))) l ↔
  t ∈ l ∧ track_id t ≠ trackId.
Proof.
  rewrite !list_elem_of_In, filter_In, negb_true_iff, bool_decide_eq_false. done.
Qed.

(** X5. After [handleRemoveTrack(trackId)] no track of the playlist
    carries the id and the selection does not carry it either, every
    other track is still there, and removing the id once more changes
    nothing. *)
Theorem handleRemoveTrack_gone s (trackId : Qc) :
  let s' := handleRemoveTrack trackId s in
  Forall (λ t, track_id t ≠ trackId) (playlist s') ∧
  (∀ c, currentTrack s' = Some c → track_id c ≠ trackId) ∧
  (∀ t, t ∈ playlist s → track_id t ≠ trackId → t ∈ playlist s') ∧
  handleRemoveTrack trackId s' = s'.
Proof.
  intros s'.
  assert (Hplaylist : playlist s' =
            List.filter (λ track, negb (bool_decide (track_id track = trackId)))
                        (playlist s)).
  { subst s'. unfold handleRemoveTrack. by destruct (is_current s trackId). }
  assert (Hgone : Forall (λ t, track_id t ≠ trackId) (playlist s')).
  { rewrite Hplaylist. apply Forall_forall. by intros t [_ Ht]%kept_other_id. }
  assert (Hcurrent : ∀ c, currentTrack s' = Some c → track_id c ≠ trackId).
  { subst s'. unfold handleRemoveTrack, is_current. intros c.
    destruct (currentTrack s) as [c0|] eqn:Hcur; [|simpl; congruence].
    case_bool_decide as Hid; simpl.
    - intros Hnext. apply (kept_other_id trackId (playlist s) c).
      destruct (JS.at_index _ _) as [x|] eqn:Hx in Hnext; simpl in Hnext.
      + injection Hnext as <-. by eapply at_index_elem.
      + destruct (JS.at_index _ _) as [x'|] eqn:Hx' in Hnext; simpl in Hnext; [|done].
        injection Hnext as <-. by eapply at_index_elem.
    - rewrite Hcur. congruence. }
  split_and!; [done | done | |].
  - intros t Hin Hid. rewrite Hplaylist. by apply kept_other_id.
  - unfold handleRemoveTrack at 1, is_current.
    assert (Hnot : match currentTrack s' with
                   | Some c => bool_decide (track_id c = trackId)
                   | None => false
                   end = false).
    { destruct (currentTrack s') as [c|] eqn:Hc; [|done].
      apply bool_decide_eq_false_2. by apply Hcurrent. }
    rewrite Hnot, Hplaylist, filter_filter_same, <- Hplaylist.
    by destruct s'.
Qed.

(** X6. Uploading one file whose id no track carries yet and then
    removing that id gives back the playlist and the selection. *)
Theorem upload_then_remove s (file : File) (stamp : Stamp) :
  selection_consistent s →
  Forall (λ t, track_id t ≠ stamp_id stamp) (playlist s) →
  let s' := handleRemoveTrack (stamp_id stamp) (handleFileUpload [(file, stamp)] s) in
  playlist s' = playlist s ∧ currentTrack s' = currentTrack s.
Proof.
  intros Hs Hfresh s'. subst s'. unfold selection_consistent in Hs.
  unfold handleRemoveTrack, handleFileUpload, is_current.
  destruct (currentTrack s) as [c|] eqn:Hcur; simpl.
  - rewrite Hcur. rewrite bool_decide_eq_false_2
      by (rewrite Forall_forall in Hfresh; by apply Hfresh).
    simpl. rewrite Hcur. split; [|done].
    rewrite List.filter_app. simpl. rewrite bool_decide_eq_true_2 by done. simpl.
    rewrite app_nil_r. apply filter_keep_all.
    eapply Forall_impl; [exact Hfresh|]. intros t Ht. simpl.
    by rewrite bool_decide_eq_false_2.
  - rewrite Hs. simpl. rewrite !bool_decide_eq_true_2 by done. simpl.
    by rewrite !at_index_nil.
Qed.

Lemma upload_then_remove_witness :
  let file := {| file_name := "d.mp3"; file_type := "audio/mpeg"; file_size := 1000 |} in
  let stamp := {| stamp_id := Qc_of_Z 4; stamp_url := "blob:d";
                  stamp_time := "2024-01-02T00:00:00.000Z" |} in
  let s' := handleRemoveTrack (Qc_of_Z 4) (handleFileUpload [(file, stamp)] Sample.app) in
  playlist s' = [Sample.A; Sample.B; Sample.C] ∧ currentTrack s' = Some Sample.B.
Proof.
  intros file stamp s'.
  apply (upload_then_remove Sample.app file stamp).
  - unfold selection_consistent. simpl. set_solver.
  - repeat constructor; intros H; apply (f_equal this) in H; vm_compute in H;
      discriminate.
Defined.

End PlaylistSteps.

(** ** Rational arithmetic *)

(** Rational arithmetic behind the numbers of the model. *)
Ltac qc_to_q :=
  unfold Qcle, Qclt, Qcdiv, Qcminus in *;
  unfold Qcplus, Qcmult, Qcopp, Qcinv, Q2Qc, Qc_of_Z in *; simpl this in *;
  repeat setoid_rewrite Qred_correct;
  repeat match goal with
         | H : context [Qred ?q] |- _ => setoid_rewrite (Qred_correct q) in H
         end;
  repeat match goal with
         | |- context [Qinv (inject_Z (Zpos ?p))] =>
             change (Qinv (inject_Z (Zpos p))) with (1 # p)%Q
         | H : context [Qinv (inject_Z (Zpos ?p))] |- _ =>
             change (Qinv (inject_Z (Zpos p))) with (1 # p)%Q in H
         end.

Lemma inject_Z_le (a b : Z) : a ≤ b → (inject_Z a <= inject_Z b)%Q.
Proof. intros. by rewrite <- Zle_Qle. Qed.

(** ** The module of [audio-utils] over its whole life *)
Section ModuleLife.
Import AudioUtils.

Lemma fill_length (dataArray samples : list Z) :
  length (fill dataArray samples) = length dataArray.
Proof.
  revert samples. induction dataArray as [|d ds IH]; intros [|x xs]; simpl; auto.
Qed.

Lemma fill_bytes (dataArray samples : list Z) :
  Forall byte dataArray → Forall byte samples → Forall byte (fill dataArray samples).
Proof.
  intros Hd. revert samples. induction Hd as [|d ds Hd Hds IH]; intros samples Hs.
  - by destruct samples.
  - destruct Hs as [|x xs Hx Hxs]; simpl; constructor; auto.
Qed.

Lemma zeros_bytes (n : Z) : Forall byte (JS.Uint8Array n).
Proof. apply Forall_replicate. unfold byte. lia. Qed.

Lemma op_well_formed (m : Module_) (o : Op) :
  well_formed m → possible [o] → well_formed (op m o).
Proof.
  intros Hm [Ho _]%Forall_cons. unfold well_formed in *.
  destruct m as [[[ctx]|] analyser source gainN taps con]; simpl in *.
  - destruct Hm as (Hopen & [g ->] & a & -> & Hfft & Hf & Ht).
    destruct o as [fresh|[[el|]| | |v|[]]| |frequency time];
      unfold op, call, connectAudioElement, setVolume, resumeAudioContext,
        cleanupAudio, signal, initializeAudioContext; simpl;
      try case_bool_decide; simpl;
      destruct source, ctx; simpl; try done; split_and!;
      first [done | by eexists | eexists; split_and!; by destruct Ho].
  - destruct Hm as (-> & -> & ->).
    destruct o as [fresh|[[el|]| | |v|[]]| |frequency time]; simpl; try done.
    split_and!; [done | by eexists |]. eexists. split_and!; done.
Qed.

Lemma ops_well_formed_from (os : list Op) (m : Module_) :
  well_formed m → possible os → well_formed (ops os m).
Proof.
  revert m. induction os as [|o os IH]; intros m Hm Hos; [done|].
  apply Forall_cons in Hos as [Ho Hos]. simpl. apply IH; [|done].
  apply op_well_formed; [done|]. by constructor.
Qed.

Lemma ops_well_formed (os : list Op) :
  possible os → well_formed (ops os initial).
Proof. by apply ops_well_formed_from. Qed.

Lemma snapshot_shape (m : Module_) (pick : AnalyserNode → list Z) :
  well_formed m → (∀ a, analyserNode m = Some a → Forall byte (pick a)) →
  let data := match analyserNode m with
              | None => JS.Uint8Array 128
              | Some a => fill (JS.Uint8Array (frequencyBinCount a)) (pick a)
              end in
  length data = 128%nat ∧ Forall byte data.
Proof.
  intros Hm Hpick. unfold well_formed in Hm.
  destruct (audioContext m) as [ctx|].
  - destruct Hm as (_ & _ & a & Ha & Hfft & _). rewrite Ha. simpl.
    unfold frequencyBinCount. rewrite Hfft. split.
    + by rewrite fill_length.
    + apply fill_bytes; [apply zeros_bytes | by apply Hpick].
  - destruct Hm as (-> & _). simpl. split; [done | apply zeros_bytes].
Qed.

(** X7. Whatever the clients and the platform have done to the
    module (initialising, connecting, changing the gain, resuming,
    tearing down, new sound), [getAudioData] and [getWaveformData] return
    exactly 128 values and each of them is a byte. *)
Theorem snapshot_always_128_bytes (os : list Op) :
  possible os →
  let m := ops os initial in
  (length (getAudioData m) = 128%nat ∧ Forall byte (getAudioData m)) ∧
  (length (getWaveformData m) = 128%nat ∧ Forall byte (getWaveformData m)).
Proof.
  intros Hos m. pose proof (ops_well_formed os Hos) as Hm. fold m in Hm.
  assert (Hdata : ∀ a, analyserNode m = Some a →
            Forall byte (frequencyData a) ∧ Forall byte (timeDomainData a)).
  { intros a Ha. unfold well_formed in Hm. destruct (audioContext m).
    - destruct Hm as (_ & _ & a' & Ha' & _ & Hf & Ht). by simplify_eq.
    - destruct Hm as (Hnone & _). congruence. }
  split.
  - apply (snapshot_shape m frequencyData Hm). intros a Ha. by apply Hdata.
  - apply (snapshot_shape m timeDomainData Hm). intros a Ha. by apply Hdata.
Qed.

Lemma snapshot_always_128_bytes_witness :
  let m := ops [OpInitialize suspended; OpCall (CallConnect (Some 1));
                OpSignal [12; 200; 255] [128; 127]; OpCall (CallResume true)] initial in
  length (getAudioData m) = 128%nat ∧ Forall byte (getAudioData m).
Proof.
  intros m.
  apply (snapshot_always_128_bytes
           [OpInitialize suspended; OpCall (CallConnect (Some 1));
            OpSignal [12; 200; 255] [128; 127]; OpCall (CallResume true)]).
  unfold possible, byte. repeat constructor; lia || done.
Defined.

(** X8. From every state of the module [cleanupAudio] leaves the
    four module variables [null], so that [getAudioData] answers 128
    zeros again; calling it once more, or on a module that was never
    initialised, changes nothing. *)
Theorem cleanupAudio_clears (os : list Op) :
  possible os →
  let m := cleanupAudio (ops os initial) in
  audioContext m = None ∧ analyserNode m = None ∧
  sourceNode m = None ∧ gainNode m = None ∧
  getAudioData m = replicate 128 0 ∧
  cleanupAudio m = m ∧
  cleanupAudio initial = initial.
Proof.
  intros Hos m. subst m. pose proof (ops_well_formed os Hos) as Hm.
  unfold well_formed in Hm. unfold cleanupAudio, getAudioData.
  destruct (ops os initial) as [[[ctx]|] analyser source gainN taps con]; simpl in *.
  - destruct Hm as (Hopen & _). destruct source, ctx; simpl; done.
  - destruct Hm as (-> & -> & ->). simpl. done.
Qed.

Lemma cleanupAudio_clears_witness :
  let m := cleanupAudio (ops [OpInitialize running; OpCall (CallConnect (Some 1))] initial) in
  audioContext m = None ∧ analyserNode m = None ∧
  sourceNode m = None ∧ gainNode m = None.
Proof.
  intros m.
  destruct (cleanupAudio_clears [OpInitialize running; OpCall (CallConnect (Some 1))])
    as (H1 & H2 & H3 & H4 & _); [|by split_and!].
  unfold possible. repeat constructor; done.
Defined.

(** X9. [initializeAudioContext] builds the graph once: a second call
    returns the context of the first one and leaves the module as the
    first call left it. *)
Theorem initializeAudioContext_once (m : Module_) (fresh fresh' : ContextState) :
  initializeAudioContext fresh' (initializeAudioContext fresh m).2
  = initializeAudioContext fresh m.
Proof.
  unfold initializeAudioContext.
  destruct (audioContext m) as [ctx|] eqn:Hctx; simpl; [by rewrite Hctx|done].
Qed.

(** X10. [setVolume] writes a gain between 0 and 1: the volume itself
    when it lies in that range, 0 below it and 1 above it; without a gain
    node it does nothing. *)
Theorem setVolume_clamps (volume : Qc) (m : Module_) :
  match gainNode m with
  | Some _ =>
      ∃ g, gainNode (setVolume volume m) = Some g ∧
           (0 ≤ gain g)%Qc ∧ (gain g ≤ 1)%Qc ∧
           ((0 ≤ volume)%Qc → (volume ≤ 1)%Qc → gain g = volume) ∧
           ((volume < 0)%Qc → gain g = 0%Qc) ∧
           ((1 < volume)%Qc → gain g = 1%Qc)
  | None => setVolume volume m = m
  end.
Proof.
  unfold setVolume. destruct (gainNode m) as [g0|]; [|done].
  eexists. split; [done|]. simpl. unfold JS.max, JS.min.
  repeat case_decide; split_and!; intros; try apply Qc_is_canon;
    qc_to_q; lra.
Qed.





End ModuleLife.

(** ** What the drawing functions put on the canvas *)
Section Drawing.
Import AudioUtils.

Lemma bars_from_length (i : Z) (samples : list Z) (barWidth height : Qc) :
  length (bars_from i samples barWidth height) = (2 * length samples)%nat.
Proof.
  revert i. induction samples as [|sample rest IH]; intros i; simpl; [done|].
  rewrite IH. lia.
Qed.

(** The height of the bar of one byte. *)
Lemma barHeight_bounds (sample : Z) (height : Qc) :
  byte sample → (0 ≤ height)%Qc →
  let barHeight := (Qc_of_Z sample / Qc_of_Z 255 * height * Q2Qc 0.8)%Qc in
  (0 ≤ barHeight)%Qc ∧ (barHeight ≤ height * Q2Qc 0.8)%Qc ∧
  (height - barHeight + barHeight = height)%Qc.
Proof.
  intros [Hlo Hhi] Hheight barHeight. subst barHeight.
  split_and!; [| |ring].
  all: pose proof (inject_Z_le 0 sample Hlo) as Hlo';
    pose proof (inject_Z_le sample 255 Hhi) as Hhi';
    change (inject_Z 0) with 0%Q in Hlo'; change (inject_Z 255) with 255%Q in Hhi';
    qc_to_q; nra.
Qed.

Lemma bars_from_in_canvas (samples : list Z) (i : Z) (barWidth width height : Qc) :
  Forall byte samples → 0 ≤ i → (0 ≤ barWidth)%Qc → (0 ≤ height)%Qc →
  ((Qc_of_Z i + Qc_of_Z (JS.length samples)) * barWidth ≤ width)%Qc →
  Forall (bar_in_canvas width height) (bars_from i samples barWidth height).
Proof.
  intros Hbytes. revert i.
  induction Hbytes as [|sample rest Hsample _ IH]; intros i Hi Hbar Hheight Hfit;
    simpl; [done|].
  assert (Hrest : 0 ≤ JS.length rest) by (unfold JS.length; lia).
  replace (JS.length (sample :: rest)) with (JS.length rest + 1) in Hfit
    by (unfold JS.length; simpl length; lia).
  rewrite Z2Qc_inj_add in Hfit.
  pose proof (inject_Z_le 0 i Hi) as Hi'.
  pose proof (inject_Z_le 0 (JS.length rest) Hrest) as Hrest'.
  change (inject_Z 0) with 0%Q in Hi', Hrest'.
  destruct (barHeight_bounds sample height Hsample Hheight) as (Hlo & Hhi & Hsum).
  constructor; [done|]. constructor.
  - simpl. split_and!; [| |exact Hsum|exact Hlo|exact Hhi].
    + clear Hlo Hhi Hsum. qc_to_q. nra.
    + clear Hlo Hhi Hsum. qc_to_q.
      change (inject_Z 1) with 1%Q in *. change (inject_Z 2) with 2%Q in *. nra.
  - apply IH; [lia | done | done |].
    rewrite Z2Qc_inj_add. clear Hlo Hhi Hsum. qc_to_q.
    change (inject_Z 1) with 1%Q in *. nra.
Qed.

(** The slots of all bars together are as wide as the canvas. *)
Lemma slots_fit (count : Z) (width : Qc) :
  0 ≤ count → (0 ≤ width)%Qc →
  (0 ≤ width / Qc_of_Z count)%Qc ∧
  ((Qc_of_Z 0 + Qc_of_Z count) * (width / Qc_of_Z count) ≤ width)%Qc.
Proof.
  intros Hcount Hwidth.
  destruct (decide (count = 0)) as [->|Hpos].
  - assert (Hinv : (width / Qc_of_Z 0 = 0)%Qc).
    { unfold Qcdiv. replace (/ Qc_of_Z 0)%Qc with 0%Qc by by apply Qc_is_canon.
      apply Qcmult_0_r. }
    rewrite Hinv, Qcmult_0_r. done.
  - assert (Hc : (0 < Qc_of_Z count)%Qc) by (apply (Z2Qc_inj_lt 0 count); lia).
    split.
    + apply Qcmult_nonneg_nonneg; [done|]. by apply Qclt_le_weak, Qcinv_pos.
    + rewrite Z2Qc_inj_0, Qcplus_0_l, Qcmult_div_r; [done|].
      intros H0. rewrite H0 in Hc. by apply Qclt_not_eq in Hc.
Qed.

(** X12. For bytes on a canvas of non-negative size [drawBars] draws
    [min(64, n)] bars, two calls each; every bar stands on the bottom
    edge inside its own slot of the canvas and is at most four fifths of
    the canvas high. *)
Theorem drawBars_in_canvas (audioData : list Z) (width height : Qc) :
  Forall byte audioData → (0 ≤ width)%Qc → (0 ≤ height)%Qc →
  let commands := drawBars audioData width height in
  Z.of_nat (length commands) = 2 * Z.min 64 (JS.length audioData) ∧
  Forall (bar_in_canvas width height) commands.
Proof.
  intros Hbytes Hwidth Hheight commands. subst commands. unfold drawBars.
  set (barCount := Z.min 64 (JS.length audioData)).
  assert (Hcount : 0 ≤ barCount ≤ JS.length audioData)
    by (unfold barCount, JS.length; lia).
  assert (Htake : JS.length (take (Z.to_nat barCount) audioData) = barCount).
  { unfold JS.length in *. rewrite length_take. lia. }
  destruct (slots_fit barCount width) as [Hbar Hfit]; [lia | done |].
  split.
  - rewrite bars_from_length. unfold JS.length in Htake. lia.
  - apply bars_from_in_canvas; [by apply Forall_take | done | done | done |].
    by rewrite Htake.
Qed.

Lemma drawBars_in_canvas_witness :
  let commands := drawBars (replicate 128 255) (Qc_of_Z 800) (Qc_of_Z 200) in
  Z.of_nat (length commands) = 128 ∧
  Forall (bar_in_canvas (Qc_of_Z 800) (Qc_of_Z 200)) commands.
Proof.
  intros commands.
  apply (drawBars_in_canvas (replicate 128 255) (Qc_of_Z 800) (Qc_of_Z 200));
    [apply Forall_replicate; unfold byte; lia | done | done].
Defined.

(** The ordinate of one byte of a wave. *)
Lemma wave_ordinate_bounds (sample : Z) (height : Qc) :
  byte sample → (0 ≤ height)%Qc →
  let v := ((Qc_of_Z sample - Qc_of_Z 128) / Qc_of_Z 128)%Qc in
  let y := (v * height / Qc_of_Z 2 + height / Qc_of_Z 2)%Qc in
  (0 ≤ y)%Qc ∧ (y ≤ height)%Qc.
Proof.
  intros [Hlo Hhi] Hheight v y. subst v y.
  pose proof (inject_Z_le 0 sample Hlo) as Hlo'.
  pose proof (inject_Z_le sample 255 Hhi) as Hhi'.
  change (inject_Z 0) with 0%Q in Hlo'. change (inject_Z 255) with 255%Q in Hhi'.
  qc_to_q. change (inject_Z 128) with 128%Q in *. split; nra.
Qed.

Lemma wave_from_length (i : Z) (x : Qc) (samples : list Z) (sliceWidth height : Qc) :
  length (wave_from i x samples sliceWidth height) = length samples.
Proof.
  revert i x. induction samples as [|sample rest IH]; intros i x; simpl; [done|].
  by rewrite IH.
Qed.

Lemma wave_from_in_canvas (samples : list Z) (i : Z) (x sliceWidth width height : Qc) :
  Forall byte samples → (0 ≤ x)%Qc → (0 ≤ sliceWidth)%Qc → (0 ≤ height)%Qc →
  (x + Qc_of_Z (JS.length samples) * sliceWidth ≤ width)%Qc →
  Forall (point_in_canvas width height) (wave_from i x samples sliceWidth height).
Proof.
  intros Hbytes. revert i x.
  induction Hbytes as [|sample rest Hsample _ IH]; intros i x Hx Hslice Hheight Hfit;
    simpl; [done|].
  assert (Hrest : 0 ≤ JS.length rest) by (unfold JS.length; lia).
  replace (JS.length (sample :: rest)) with (JS.length rest + 1) in Hfit
    by (unfold JS.length; simpl length; lia).
  rewrite Z2Qc_inj_add in Hfit.
  pose proof (inject_Z_le 0 (JS.length rest) Hrest) as Hrest'.
  change (inject_Z 0) with 0%Q in Hrest'.
  destruct (wave_ordinate_bounds sample height Hsample Hheight) as [Hlo Hhi].
  constructor.
  - assert (Hright : (x ≤ width)%Qc).
    { clear Hlo Hhi. qc_to_q. change (inject_Z 1) with 1%Q in *. nra. }
    by case_bool_decide.
  - apply IH; [| done | done |].
    + clear Hlo Hhi. qc_to_q. lra.
    + clear Hlo Hhi. qc_to_q. change (inject_Z 1) with 1%Q in *. nra.
Qed.

(** X13. For bytes on a canvas of non-negative size [drawWaveform]
    strokes one path with a point per sample, and every point of the
    path lies on the canvas. *)
Theorem drawWaveform_in_canvas (audioData : list Z) (width height : Qc) :
  Forall byte audioData → (0 ≤ width)%Qc → (0 ≤ height)%Qc →
  let commands := drawWaveform audioData width height in
  length commands = (length audioData + 4)%nat ∧
  Forall (point_in_canvas width height) commands.
Proof.
  intros Hbytes Hwidth Hheight commands. subst commands. unfold drawWaveform.
  destruct (slots_fit (JS.length audioData) width) as [Hslice Hfit];
    [unfold JS.length; lia | done |].
  split.
  - rewrite !length_app, wave_from_length. simpl. lia.
  - repeat (apply Forall_cons; split; [done|]).
    apply Forall_app. split; [|by repeat constructor].
    apply wave_from_in_canvas; [done | done | done | done |].
    rewrite Z2Qc_inj_0, Qcplus_0_l in Hfit. by rewrite Qcplus_0_l.
Qed.

Lemma drawWaveform_in_canvas_witness :
  let commands := drawWaveform [0; 128; 255] (Qc_of_Z 800) (Qc_of_Z 200) in
  length commands = 7%nat ∧
  Forall (point_in_canvas (Qc_of_Z 800) (Qc_of_Z 200)) commands.
Proof.
  intros commands.
  apply (drawWaveform_in_canvas [0; 128; 255] (Qc_of_Z 800) (Qc_of_Z 200));
    [unfold byte; repeat constructor; lia | done | done].
Defined.

End Drawing.

(** ** The texts of times *)
Section TimeTexts.








End TimeTexts.

(** ** Which files are audio files *)
Section FileTypes.

(** X15. A file that [validateFile] of the uploader lets through is
    an audio file for [isValidAudioFile] too, and is at most 50 MB
    large. *)
Theorem validateFile_accepts_valid (file : File) :
  AudioUploader.validateFile file = None →
  AudioUtils.isValidAudioFile file = true ∧ file_size file ≤ 52428800.
Proof.
  unfold AudioUploader.validateFile, AudioUtils.isValidAudioFile, JS.includes.
  destruct (bool_decide (file_type file ∈ AudioUploader.allowedTypes)) eqn:Htype;
    simpl; [|done].
  destruct (bool_decide (file_size file > AudioUploader.maxFileSize)) eqn:Hsize;
    [done|]. intros _. apply bool_decide_eq_false in Hsize. split.
  - apply bool_decide_eq_true in Htype. apply orb_true_iff. left.
    apply bool_decide_eq_true.
    unfold AudioUploader.allowedTypes, AudioUtils.validTypes in *.
    repeat (apply elem_of_cons in Htype as [->|Htype]);
      [by apply (bool_decide_unpack _).. | by apply not_elem_of_nil in Htype].
  - unfold AudioUploader.maxFileSize in Hsize. lia.
Qed.

Lemma validateFile_accepts_valid_witness :
  let file := {| file_name := "song"; file_type := "audio/m4a"; file_size := 4000000 |} in
  AudioUtils.isValidAudioFile file = true ∧ file_size file ≤ 52428800.
Proof.
  intros file. apply (validateFile_accepts_valid file). reflexivity.
Defined.

End FileTypes.

(** ** More on the transport handlers *)
Section TransportRuns.
Import AudioPlayer.

(** Unfolds the handlers and the monad down to functions on worlds. *)
Ltac run :=
  unfold fire, dispatch, exec, completion,
    handlePlayPause, handleEnded, handlePlay, handlePause, handleNext,
    handlePrevious, handleSeek, handleVolumeChange, toggleMute,
    handleTimeUpdate, handleLoadedMetadata,
    startVisualization, animate, audio_play, context_resume,
    call_onTrackChange, assign_currentTime, assign_volume, audio_pause, emit,
    setIsPlaying, setCurrentTime, setDuration, setVolume, setIsMuted,
    setIsRepeat, setIsShuffle, setIsLoading, setError,
    unawaited, try_catch_finally,
    mbind, mret, M_bind, M_ret, bind, ret, gets, modify, throw.

(** *** Shuffle *)

Lemma randomIndex_in_range (props : Props) (env : Env) :
  playlist props ≠ [] → (0 ≤ random env)%Qc → (random env < 1)%Qc →
  0 ≤ randomIndex props env < JS.length (playlist props).
Proof.
  intros Hne Hlo Hhi. unfold randomIndex, floor.
  set (N := JS.length (playlist props)).
  assert (HN : 0 < N).
  { unfold N, JS.length. destruct (playlist props); [done|simpl; lia]. }
  pose proof (inject_Z_le 1 N ltac:(lia)) as HN'. change (inject_Z 1) with 1%Q in HN'.
  set (x := (random env * Qc_of_Z N)%Qc).
  assert (Hx : (0 <= x)%Q ∧ (x < inject_Z N)%Q).
  { unfold x. clear -Hlo Hhi HN'. qc_to_q. split; nra. }
  destruct Hx as [Hx0 HxN]. split.
  - change 0 with (Qfloor 0). by apply Qfloor_resp_le.
  - rewrite Zlt_Qlt. eapply Qle_lt_trans; [apply Qfloor_le | exact HxN].
Qed.

(** X16. With shuffle on and a draw of [Math.random()] in [0, 1), on
    a playlist that is not empty [handleNext] and [handlePrevious] hand
    the same index to the parent, and it is an index of the playlist. *)
Theorem shuffle_index_in_range (props : Props) (env : Env) (w : World) :
  isShuffle (state w) = true →
  playlist props ≠ [] →
  (0 ≤ random env)%Qc → (random env < 1)%Qc →
  let index := randomIndex props env in
  0 ≤ index < JS.length (playlist props) ∧
  dispatch (handleNext props env) w = (Normal tt, notified props index w) ∧
  dispatch (handlePrevious props env) w = (Normal tt, notified props index w).
Proof.
  intros Hshuffle Hne Hlo Hhi index. subst index.
  pose proof (randomIndex_in_range props env Hne Hlo Hhi) as Hrange.
  split; [done|]. run. rewrite Hshuffle.
  rewrite bool_decide_eq_false_2 by lia.
  unfold notified. by destruct (onTrackChange props).
Qed.

Lemma shuffle_index_in_range_witness :
  let props := Sample.props [Sample.A; Sample.B; Sample.C] 0 in
  let w := exec (setIsShuffle true) Sample.mounted in
  dispatch (handleNext props Sample.accepting) w
    = (Normal tt, with_emitted (TrackChange 1) w).
Proof.
  intros props w.
  destruct (shuffle_index_in_range props Sample.accepting w) as (_ & Hnext & _);
    [reflexivity | done | done | done |].
  exact Hnext.
Defined.

(** *** There and back *)

(** X17. With shuffle off and the cursor at [i] in a playlist of [N]
    tracks, once the parent has moved the cursor to the index
    [handleNext] gave, [handlePrevious] gives [i] again, and the other
    way round. *)
Theorem next_previous_index_round_trip (props : Props) (env : Env) (w : World) :
  let N := JS.length (playlist props) in
  let i := currentTrackIndex props in
  0 ≤ i < N →
  isShuffle (state w) = false →
  dispatch (handlePrevious (moved_to ((i + 1) mod N) props) env) w
    = (Normal tt, notified props i w) ∧
  dispatch (handleNext (moved_to ((i - 1 + N) mod N) props) env) w
    = (Normal tt, notified props i w).
Proof.
  intros N i Hi Hshuffle. subst N i.
  set (N := JS.length (playlist props)) in *.
  set (i := currentTrackIndex props) in *.
  assert (Hnext : 0 ≤ (i + 1) mod N < N) by (apply Z.mod_pos_bound; lia).
  assert (Hprev : 0 ≤ (i - 1 + N) mod N < N) by (apply Z.mod_pos_bound; lia).
  split; run; simpl; fold N; rewrite Hshuffle;
    rewrite bool_decide_eq_false_2 by lia.
  - rewrite previous_wraps by done.
    replace ((i + 1) mod N - 1 + N) with ((i + 1) mod N + (N - 1)) by lia.
    rewrite Zplus_mod_idemp_l.
    replace (i + 1 + (N - 1)) with (i + 1 * N) by lia.
    rewrite Z.mod_add, Z.mod_small by lia.
    unfold notified. simpl. by destruct (onTrackChange props).
  - rewrite remainder_next by lia.
    rewrite Zplus_mod_idemp_l.
    replace (i - 1 + N + 1) with (i + 1 * N) by lia.
    rewrite Z.mod_add, Z.mod_small by lia.
    unfold notified. simpl. by destruct (onTrackChange props).
Qed.

Lemma next_previous_index_round_trip_witness :
  let props := Sample.props [Sample.A; Sample.B; Sample.C] 2 in
  dispatch (handlePrevious (moved_to 0 props) Sample.accepting) Sample.mounted
    = (Normal tt, with_emitted (TrackChange 2) Sample.mounted).
Proof.
  intros props.
  destruct (next_previous_index_round_trip props Sample.accepting Sample.mounted)
    as [Hback _]; [simpl; unfold JS.length; simpl; lia | reflexivity |].
  exact Hback.
Defined.

(** *** Playing and pausing *)

(** X18. Pressing play while nothing plays draws no frame and
    requests none: [startVisualization] runs with the [isPlaying] of the
    render that created it, which is false. *)
Theorem play_from_paused_draws_nothing (props : Props) (env : Env) (w : World) :
  isPlaying (state w) = false →
  let w' := exec (dispatch (handlePlayPause props env)) w in
  drawn w' = drawn w ∧ animationRef w' = animationRef w.
Proof.
  intros Hpaused. unfold drawn. run. rewrite Hpaused.
  destruct w as [st [el|] canvas [[[]]|] anim u ev],
    (currentTrack props), (resume_ok env), (play_ok env), canvas;
    simpl in *; rewrite ?Hpaused; simpl; rewrite ?omap_app, ?app_nil_r; done.
Qed.

Lemma play_from_paused_draws_nothing_witness :
  let w' := exec (dispatch (handlePlayPause (Sample.props [Sample.A; Sample.B] 0)
                                            Sample.accepting)) Sample.loaded in
  isPlaying (state w') = true ∧ drawn w' = [] ∧ animationRef w' = None.
Proof.
  intros w'.
  destruct (play_from_paused_draws_nothing (Sample.props [Sample.A; Sample.B] 0)
              Sample.accepting Sample.loaded) as [Hdrawn Hframe]; [reflexivity|].
  split_and!; [reflexivity | exact Hdrawn | exact Hframe].
Defined.

(** What an accepted [play()] leaves behind. *)
Lemma handlePlay_accepted (props : Props) (env : Env) (snap : State) (w : World) :
  is_Some (audioRef w) → is_Some (currentTrack props) →
  resume_ok env = true → play_ok env = true →
  let w' := exec (handlePlay props env snap) w in
  isPlaying (state w') = true ∧
  el_paused <$> audioRef w' = Some false ∧
  isLoading (state w') = false ∧
  error (state w') = None.
Proof.
  intros [el Hel] [t Ht] Hresume Hplay. run. rewrite Hel, Ht, Hresume, Hplay.
  destruct w as [st ref canvas [[[]]|] anim u ev]; simpl in *; subst ref;
    destruct canvas, (isPlaying snap); simpl; done.
Qed.

Lemma handlePause_pauses (w : World) :
  is_Some (audioRef w) →
  isPlaying (state (exec handlePause w)) = false ∧
  el_paused <$> audioRef (exec handlePause w) = Some true.
Proof.
  intros [el Hel]. run.
  destruct w as [st ref canvas ctx anim u ev]; simpl in *; subst ref.
  destruct anim as [handle|]; simpl; try case_bool_decide; simpl; done.
Qed.

(** X19. With an element, a current track and a platform that lets
    the context resume and the element play, pressing the play button
    while nothing plays makes is-playing true with the element playing,
    no error and no loading left; pressing it again pauses the element
    and makes is-playing false. *)
Theorem play_then_pause (props : Props) (env : Env) (w : World) :
  is_Some (audioRef w) → is_Some (currentTrack props) →
  isPlaying (state w) = false →
  resume_ok env = true → play_ok env = true →
  let playing := exec (dispatch (handlePlayPause props env)) w in
  let paused := exec (dispatch (handlePlayPause props env)) playing in
  (isPlaying (state playing) = true ∧
   el_paused <$> audioRef playing = Some false ∧
   isLoading (state playing) = false ∧
   error (state playing) = None) ∧
  (isPlaying (state paused) = false ∧
   el_paused <$> audioRef paused = Some true).
Proof.
  intros Hel Ht Hpaused Hresume Hplay playing paused.
  assert (Hplaying : playing = exec (handlePlay props env (state w)) w).
  { subst playing. unfold exec at 1, dispatch, handlePlayPause.
    by rewrite Hpaused, unawaited_handlePlay. }
  destruct (handlePlay_accepted props env (state w) w Hel Ht Hresume Hplay)
    as (H1 & H2 & H3 & H4).
  rewrite <- Hplaying in H1, H2, H3, H4.
  assert (Hthere : is_Some (audioRef playing)).
  { destruct (audioRef playing); [by eexists | done]. }
  split; [done|].
  assert (Hpausing : paused = exec handlePause playing).
  { subst paused. unfold exec at 1, dispatch, handlePlayPause. by rewrite H1. }
  rewrite Hpausing. by apply handlePause_pauses.
Qed.

Lemma play_then_pause_witness :
  let props := Sample.props [Sample.A; Sample.B] 0 in
  let playing := exec (dispatch (handlePlayPause props Sample.accepting)) Sample.loaded in
  let paused := exec (dispatch (handlePlayPause props Sample.accepting)) playing in
  isPlaying (state playing) = true ∧ isPlaying (state paused) = false.
Proof.
  intros props playing paused.
  destruct (play_then_pause props Sample.accepting Sample.loaded)
    as [(Hplaying & _) (Hpaused & _)];
    [by eexists | by eexists | reflexivity | reflexivity | reflexivity |].
  split; [exact Hplaying | exact Hpaused].
Defined.

(** *** What holds in every reachable world *)

(** Closes a goal on an explicit world. *)
Ltac settled :=
  simpl; first [done | eexists; split; [reflexivity | simpl; solve [auto | done]]].

Lemma fire_not_loading (props : Props) (env : Env) (a : Action) (w : World) :
  isLoading (state w) = false → isLoading (state (exec (fire props env a) w)) = false.
Proof.
  intros Hloading.
  destruct w as [st ref canvas ctx anim u ev]; simpl in Hloading.
  destruct a; run; simpl.
  - destruct (isPlaying st), ref, (currentTrack props), ctx as [[[]]|],
      (resume_ok env), (play_ok env), anim as [handle|], canvas; simpl;
      try case_bool_decide; settled.
  - destruct ref; settled.
  - destruct ref; settled.
  - destruct (isRepeat st);
      [destruct ref, (currentTrack props), ctx as [[[]]|], (resume_ok env),
         (play_ok env), (isPlaying st), canvas
      |case_bool_decide; destruct (isShuffle st), (onTrackChange props)];
      settled.
  - destruct ref; settled.
  - destruct ref; settled.
  - destruct ref, (isMuted st); settled.
  - case_bool_decide; destruct (isShuffle st), (onTrackChange props); settled.
  - case_bool_decide; destruct (isShuffle st), (onTrackChange props); settled.
  - settled.
  - settled.
Qed.

(** X20. In every reachable world, once the handler of the last
    event has run to its end, loading is false. *)
Theorem reachable_not_loading (w : World) :
  reachable w → isLoading (state w) = false.
Proof.
  induction 1 as [w Hstate _ | w props env a _ IH].
  - by rewrite Hstate.
  - by apply fire_not_loading.
Qed.

Lemma reachable_not_loading_witness :
  isLoading (state (exec (fire (Sample.props [Sample.A; Sample.B] 0) Sample.rejecting
                               PlayPause) Sample.mounted)) = false.
Proof.
  apply (reachable_not_loading
           (exec (fire (Sample.props [Sample.A; Sample.B] 0) Sample.rejecting
                       PlayPause) Sample.mounted)).
  apply reachable_fire. apply reachable_mount; reflexivity.
Defined.




End TransportRuns.

(** ** Reading a time back from its text *)
Section TimeTextsApart.










End TimeTextsApart.

(** ** The animation loop *)
Section AnimationLoop.
Import AudioUtils.

Lemma loop_event_one_frame (l : Loop) (e : LoopEvent) :
  one_frame l → one_frame (loop_event l e).
Proof.
  intros [Hnext Hl]. unfold one_frame, loop_event, loop_start, loop_stop, loop_frame,
    running_id, loop_animate.
  destruct l as [[handle|] queue next painted]; simpl in *.
  - destruct Hl as [Hhandle ->].
    destruct e as [m| |m]; simpl; rewrite ?bool_decide_eq_false_2 by lia; simpl;
      rewrite ?bool_decide_eq_true_2 by done; simpl; split_and!; done || lia.
  - subst queue. destruct e as [m| |m]; simpl; split_and!; done || lia.
Qed.

Lemma loop_events_one_frame (es : list LoopEvent) (l : Loop) :
  one_frame l → one_frame (loop_events es l).
Proof.
  revert l. induction es as [|e es IH]; intros l Hl; [done|].
  simpl. by apply IH, loop_event_one_frame.
Qed.

(** X23. In a loop made by [createVisualizationLoop], whatever
    starts, stops and frames have happened: at most one frame callback is
    queued, the one [animationId] names; [start] on a running loop neither
    draws nor queues anything; after [stop] nothing is queued, and a
    second [stop] changes nothing. *)
Theorem loop_never_doubles (es : list LoopEvent) (m : Module_) :
  let l := loop_events es newLoop in
  (length (queued l) ≤ 1)%nat ∧
  queued l = option_list (animationId l) ∧
  (is_Some (animationId l) → loop_start m l = l) ∧
  queued (loop_stop l) = [] ∧
  loop_stop (loop_stop l) = loop_stop l.
Proof.
  intros l. assert (Hl : one_frame l).
  { apply loop_events_one_frame. by split. }
  destruct Hl as [Hnext Hl]. unfold loop_start, loop_stop, running_id.
  destruct l as [[handle|] queue next painted]; simpl in *.
  - destruct Hl as [Hhandle ->]. rewrite bool_decide_eq_false_2 by lia. simpl.
    rewrite bool_decide_eq_true_2 by done. simpl. split_and!; done || lia.
  - subst queue. simpl. split_and!; done || lia.
Qed.

End AnimationLoop.
